(** * A connection pool: [lib/pool.js] and [lib/pool_config.js]

    The pool keeps four queues (all, free and extra connections, and the
    waiting continuations), a closed flag and the handle of its eviction
    timer.  Connections are JavaScript objects shared between the queues and
    the callers, so they live in a store indexed by identity; the pool's
    queues hold identities.  Continuations of the callers are opaque: calling
    one is recorded in a trace, and what is handed to [process.nextTick]
    waits in a queue of deferred tasks until the scheduler runs it. *)

From stdpp Require Import base option list gmap.
From Stdlib Require Import ZArith Lia.

Open Scope nat_scope.

(** ** The [denque] operations the pool uses, on lists (front = head) *)

Module Denque.
Section Ops.
Context {A : Type}.

Definition push (q : list A) (x : A) : list A := q ++ [x].

Definition shift (q : list A) : option A * list A :=
  match q with
  | [] => (None, [])
  | x :: q' => (Some x, q')
  end.

Definition pop (q : list A) : option A * list A :=
  (last q, removelast q).

(** [peekFront], under its short name. *)
Definition peek (q : list A) : option A := head q.

Definition get (q : list A) (i : nat) : option A := q !! i.

End Ops.
End Denque.

(** ** Data *)

Definition ConnId := nat.

Inductive Callback :=
| Cb (id : nat)          (* a function of the caller *)
| ThrowIfError.          (* the function [end] installs when given none *)

Inductive Error :=
| PoolClosed                    (* 'Pool is closed.' *)
| NoConnectionsAvailable        (* 'No connections available.' *)
| QueueLimitReached             (* 'Queue limit reached.' *)
| External (code : nat).        (* an error of a connection, passed on *)

(** The arguments a continuation is called with. *)
Inductive Args :=
| ArgErr (e : Error)            (* cb(err) *)
| ArgConn (c : ConnId)          (* cb(null, connection) *)
| ArgNone.                      (* cb(undefined) *)

Inductive Emitted := EvEnqueue | EvConnection (c : ConnId).

(** What the pool does to the outside, in the order it does it. *)
Inductive Event :=
| Invoke (cb : Callback) (a : Args)
| Emit (e : Emitted)
| ConnectReq (c : ConnId)             (* connection.connect(...) *)
| RealEndReq (c : ConnId) (k : nat)   (* connection._realEnd(endCB) of shutdown k *)
| Destroyed (c : ConnId).             (* connection.destroy() *)

(** What [process.nextTick] holds. *)
Inductive Task :=
| TkInvoke (cb : Callback) (a : Args)
| TkGetConnection (cb : Callback).

Record PoolConfig := {
  connectionLimit : nat;
  minConnections : nat;
  queueLimit : nat;
  waitForConnections : bool;
  idleTimeout : Z                     (* seconds *)
}.

(** The two fields of a connection the pool reads and writes. *)
Record PoolConnection := {
  _pool : bool;                       (* the back-reference is set *)
  _lastReleased : option Z            (* milliseconds; undefined until stamped *)
}.

(** The variables the closure [endCB] of one call of [end] captures. *)
Record EndCtx := {
  end_cb : Callback;
  calledBack : bool;
  closedConnections : nat
}.

Record Pool := {
  config : PoolConfig;
  _allConnections : list ConnId;
  _freeConnections : list ConnId;
  _extraConnections : list ConnId;
  _connectionQueue : list Callback;
  _closed : bool;
  _expiredTimer : bool;
  (* the world around the pool *)
  heap : gmap ConnId PoolConnection;
  next_conn : ConnId;
  nextTick : list Task;
  connecting : list (ConnId * Callback);
  ending : list EndCtx;
  trace : list Event
}.

Definition set_all (q : list ConnId) (s : Pool) : Pool :=
  {| config := config s; _allConnections := q;
     _freeConnections := _freeConnections s;
     _extraConnections := _extraConnections s;
     _connectionQueue := _connectionQueue s; _closed := _closed s;
     _expiredTimer := _expiredTimer s; heap := heap s;
     next_conn := next_conn s; nextTick := nextTick s;
     connecting := connecting s; ending := ending s; trace := trace s |}.

Definition set_free (q : list ConnId) (s : Pool) : Pool :=
  {| config := config s; _allConnections := _allConnections s;
     _freeConnections := q;
     _extraConnections := _extraConnections s;
     _connectionQueue := _connectionQueue s; _closed := _closed s;
     _expiredTimer := _expiredTimer s; heap := heap s;
     next_conn := next_conn s; nextTick := nextTick s;
     connecting := connecting s; ending := ending s; trace := trace s |}.

Definition set_extra (q : list ConnId) (s : Pool) : Pool :=
  {| config := config s; _allConnections := _allConnections s;
     _freeConnections := _freeConnections s;
     _extraConnections := q;
     _connectionQueue := _connectionQueue s; _closed := _closed s;
     _expiredTimer := _expiredTimer s; heap := heap s;
     next_conn := next_conn s; nextTick := nextTick s;
     connecting := connecting s; ending := ending s; trace := trace s |}.

Definition set_queue (q : list Callback) (s : Pool) : Pool :=
  {| config := config s; _allConnections := _allConnections s;
     _freeConnections := _freeConnections s;
     _extraConnections := _extraConnections s;
     _connectionQueue := q; _closed := _closed s;
     _expiredTimer := _expiredTimer s; heap := heap s;
     next_conn := next_conn s; nextTick := nextTick s;
     connecting := connecting s; ending := ending s; trace := trace s |}.

Definition set_closed (b : bool) (s : Pool) : Pool :=
  {| config := config s; _allConnections := _allConnections s;
     _freeConnections := _freeConnections s;
     _extraConnections := _extraConnections s;
     _connectionQueue := _connectionQueue s; _closed := b;
     _expiredTimer := _expiredTimer s; heap := heap s;
     next_conn := next_conn s; nextTick := nextTick s;
     connecting := connecting s; ending := ending s; trace := trace s |}.

Definition set_timer (b : bool) (s : Pool) : Pool :=
  {| config := config s; _allConnections := _allConnections s;
     _freeConnections := _freeConnections s;
     _extraConnections := _extraConnections s;
     _connectionQueue := _connectionQueue s; _closed := _closed s;
     _expiredTimer := b; heap := heap s;
     next_conn := next_conn s; nextTick := nextTick s;
     connecting := connecting s; ending := ending s; trace := trace s |}.

Definition set_heap (h : gmap ConnId PoolConnection) (n : ConnId) (s : Pool) : Pool :=
  {| config := config s; _allConnections := _allConnections s;
     _freeConnections := _freeConnections s;
     _extraConnections := _extraConnections s;
     _connectionQueue := _connectionQueue s; _closed := _closed s;
     _expiredTimer := _expiredTimer s; heap := h;
     next_conn := n; nextTick := nextTick s;
     connecting := connecting s; ending := ending s; trace := trace s |}.

Definition set_ticks (t : list Task) (s : Pool) : Pool :=
  {| config := config s; _allConnections := _allConnections s;
     _freeConnections := _freeConnections s;
     _extraConnections := _extraConnections s;
     _connectionQueue := _connectionQueue s; _closed := _closed s;
     _expiredTimer := _expiredTimer s; heap := heap s;
     next_conn := next_conn s; nextTick := t;
     connecting := connecting s; ending := ending s; trace := trace s |}.

Definition set_connecting (l : list (ConnId * Callback)) (s : Pool) : Pool :=
  {| config := config s; _allConnections := _allConnections s;
     _freeConnections := _freeConnections s;
     _extraConnections := _extraConnections s;
     _connectionQueue := _connectionQueue s; _closed := _closed s;
     _expiredTimer := _expiredTimer s; heap := heap s;
     next_conn := next_conn s; nextTick := nextTick s;
     connecting := l; ending := ending s; trace := trace s |}.

Definition set_ending (l : list EndCtx) (s : Pool) : Pool :=
  {| config := config s; _allConnections := _allConnections s;
     _freeConnections := _freeConnections s;
     _extraConnections := _extraConnections s;
     _connectionQueue := _connectionQueue s; _closed := _closed s;
     _expiredTimer := _expiredTimer s; heap := heap s;
     next_conn := next_conn s; nextTick := nextTick s;
     connecting := connecting s; ending := l; trace := trace s |}.

Definition set_trace (t : list Event) (s : Pool) : Pool :=
  {| config := config s; _allConnections := _allConnections s;
     _freeConnections := _freeConnections s;
     _extraConnections := _extraConnections s;
     _connectionQueue := _connectionQueue s; _closed := _closed s;
     _expiredTimer := _expiredTimer s; heap := heap s;
     next_conn := next_conn s; nextTick := nextTick s;
     connecting := connecting s; ending := ending s; trace := t |}.

(** ** The outside world, as the pool uses it *)

(** [process.nextTick(task)]. *)
Definition defer (t : Task) (s : Pool) : Pool :=
  set_ticks (nextTick s ++ [t]) s.

(** A call of a continuation, now. *)
Definition invoke (cb : Callback) (a : Args) (s : Pool) : Pool :=
  set_trace (trace s ++ [Invoke cb a]) s.

Definition emit (e : Emitted) (s : Pool) : Pool :=
  set_trace (trace s ++ [Emit e]) s.

(** Modelled from the spec: the constructor of [PoolConnection]
    (lib/pool_connection.js), which yields a new object whose back-reference
    is the pool and whose [_lastReleased] is not set yet. *)
Definition new_PoolConnection (s : Pool) : ConnId * Pool :=
  let c := next_conn s in
  (c, set_heap (<[c := {| _pool := true; _lastReleased := None |}]> (heap s)) (S c) s).

(** Modelled from the spec: [connect] of a connection (lib/connection.js),
    the asynchronous establishment: the closure is kept until the
    establishment has ended, and is then called once (see [connected]). *)
Definition connect (c : ConnId) (cb : Callback) (s : Pool) : Pool :=
  set_connecting (connecting s ++ [(c, cb)])
    (set_trace (trace s ++ [ConnectReq c]) s).

(** [connection._pool], as a truth value. *)
Definition conn_pool (s : Pool) (c : ConnId) : bool :=
  match heap s !! c with
  | Some o => _pool o
  | None => false
  end.

Definition conn_lastReleased (s : Pool) (c : ConnId) : option Z :=
  match heap s !! c with
  | Some o => _lastReleased o
  | None => None
  end.

(** ** The pool *)

(** [new Pool({config})]. *)
Definition Pool_new (cfg : PoolConfig) : Pool :=
  {| config := cfg; _allConnections := []; _freeConnections := [];
     _extraConnections := []; _connectionQueue := []; _closed := false;
     _expiredTimer := false; heap := ∅; next_conn := 0; nextTick := [];
     connecting := []; ending := []; trace := [] |}.

Definition _startExpiredTimer (s : Pool) : Pool :=
  if _expiredTimer s then s else set_timer true s.

Definition _stopExpiredTimer (s : Pool) : Pool :=
  if _expiredTimer s then set_timer false s else s.

Definition getConnection (cb : Callback) (s : Pool) : Pool :=
  if _closed s then defer (TkInvoke cb (ArgErr PoolClosed)) s
  else
    let '(connection, s1) :=
      if 0 <? length (_freeConnections s) then
        let '(c, q) := Denque.shift (_freeConnections s) in (c, set_free q s)
      else (None, s) in
    let '(connection, s2) :=
      match connection with
      | None =>
          if 0 <? length (_extraConnections s1) then
            let '(c, q) := Denque.pop (_extraConnections s1) in
            (c, set_extra q s1)
          else (None, s1)
      | Some _ => (connection, s1)
      end in
    match connection with
    | Some c => defer (TkInvoke cb (ArgConn c)) s2
    | None =>
        if (connectionLimit (config s2) =? 0)
           || (length (_allConnections s2) <? connectionLimit (config s2))
        then
          let '(c, s3) := new_PoolConnection s2 in
          let s4 := _startExpiredTimer s3 in
          let s5 := set_all (Denque.push (_allConnections s4) c) s4 in
          connect c cb s5
        else if negb (waitForConnections (config s2)) then
          defer (TkInvoke cb (ArgErr NoConnectionsAvailable)) s2
        else if negb (queueLimit (config s2) =? 0)
                && (queueLimit (config s2) <=? length (_connectionQueue s2))
        then invoke cb (ArgErr QueueLimitReached) s2
        else
          let s3 := emit EvEnqueue s2 in
          set_queue (Denque.push (_connectionQueue s3) cb) s3
    end.

(** The closure [getConnection] gives to [connect], called when the
    establishment of the [i]-th pending connection has ended with [err]. *)
Definition connected (i : nat) (err : option Error) (s : Pool) : Pool :=
  match connecting s !! i with
  | None => s
  | Some (connection, cb) =>
      let s1 := set_connecting (delete i (connecting s)) s in
      if _closed s1 then invoke cb (ArgErr PoolClosed) s1
      else
        match err with
        | Some e => invoke cb (ArgErr e) s1
        | None => invoke cb (ArgConn connection) (emit (EvConnection connection) s1)
        end
  end.

Definition stamp (now : Z) (o : PoolConnection) : PoolConnection :=
  {| _pool := _pool o; _lastReleased := Some now |}.

(** [releaseConnection(connection)]; [now] is what [Date.now()] reads. *)
Definition releaseConnection (now : Z) (connection : ConnId) (s : Pool) : Pool :=
  if negb (conn_pool s connection) then
    match Denque.shift (_connectionQueue s) with
    | (Some cb, q) => defer (TkGetConnection cb) (set_queue q s)
    | (None, _) => s
    end
  else
    match Denque.shift (_connectionQueue s) with
    | (Some cb, q) => defer (TkInvoke cb (ArgConn connection)) (set_queue q s)
    | (None, _) =>
        if minConnections (config s) <=? length (_freeConnections s) then
          let s1 := set_heap (alter (stamp now) connection (heap s)) (next_conn s) s in
          set_extra (Denque.push (_extraConnections s1) connection) s1
        else
          set_free (Denque.push (_freeConnections s) connection) s
    end.

(** The closure [endCB] of the [k]-th call of [end]. *)
Definition endCB (k : nat) (err : option Error) (s : Pool) : Pool :=
  match ending s !! k with
  | None => s
  | Some ctx =>
      if calledBack ctx then s
      else
        match err with
        | Some e =>
            invoke (end_cb ctx) (ArgErr e)
              (set_ending
                 (<[k := {| end_cb := end_cb ctx; calledBack := true;
                            closedConnections := closedConnections ctx |}]>
                    (ending s)) s)
        | None =>
            let n := S (closedConnections ctx) in
            if length (_allConnections s) <=? n then
              invoke (end_cb ctx) ArgNone
                (set_ending
                   (<[k := {| end_cb := end_cb ctx; calledBack := true;
                              closedConnections := n |}]> (ending s)) s)
            else
              set_ending
                (<[k := {| end_cb := end_cb ctx; calledBack := false;
                           closedConnections := n |}]> (ending s)) s
        end
  end.

(** Modelled from the spec: [_realEnd] of a connection
    (lib/pool_connection.js), the graceful end: asynchronous, it reports
    success or failure to [endCB] later (see [endCB]). *)
Definition _realEnd (k : nat) (c : ConnId) (s : Pool) : Pool :=
  set_trace (trace s ++ [RealEndReq c k]) s.

(** The loop of [end] over the indices of [_allConnections]. *)
Fixpoint end_loop (k : nat) (conns : list ConnId) (s : Pool) : Pool :=
  match conns with
  | [] => s
  | connection :: rest => end_loop k rest (_realEnd k connection s)
  end.

(** [end(cb)]; [None] stands for an argument that is not a function. *)
Definition Pool_end (cb : option Callback) (s : Pool) : Pool :=
  let s1 := _stopExpiredTimer (set_closed true s) in
  let cb := default ThrowIfError cb in
  let k := length (ending s1) in
  let s2 :=
    set_ending
      (ending s1 ++ [{| end_cb := cb; calledBack := false; closedConnections := 0 |}])
      s1 in
  if length (_allConnections s2) =? 0 then endCB k None s2
  else end_loop k (_allConnections s2) s2.

(** The loop [for (; --len; )] of [spliceConnection], [n] turns of it. *)
Fixpoint splice_loop (n : nat) (queue : list ConnId) (connection : ConnId)
  : list ConnId :=
  match n with
  | 0 => queue
  | S n' =>
      match queue with
      | [] => []
      | x :: q =>
          if x =? connection then q
          else splice_loop n' (Denque.push q x) connection
      end
  end.

Definition spliceConnection (queue : list ConnId) (connection : ConnId)
  : list ConnId :=
  let len := length queue in
  if len =? 0 then queue
  else
    match Denque.get queue (len - 1) with
    | Some x =>
        if x =? connection then snd (Denque.pop queue)
        else splice_loop (len - 1) queue connection
    | None => queue
    end.

Definition _removeConnection (now : Z) (connection : ConnId) (s : Pool) : Pool :=
  let s1 := set_all (spliceConnection (_allConnections s) connection) s in
  let s2 := set_free (spliceConnection (_freeConnections s1) connection) s1 in
  let s3 := set_extra (spliceConnection (_extraConnections s2) connection) s2 in
  let s4 := releaseConnection now connection s3 in
  if length (_allConnections s4) =? 0 then _stopExpiredTimer s4 else s4.

(** Modelled from the spec: the forced removal of a connection
    (lib/pool_connection.js) clears its back-reference to the pool. *)
Definition detach (c : ConnId) (s : Pool) : Pool :=
  set_heap
    (alter (fun o => {| _pool := false; _lastReleased := _lastReleased o |}) c (heap s))
    (next_conn s) s.

(** Modelled from the spec: [destroy] of a pooled connection
    (lib/pool_connection.js), the forced removal.  A connection that still
    references its pool clears the reference and has the pool unlink it
    ([_removeConnection]): what the sweep destroys is "destroyed and removed
    from allConnections".  Then the underlying resource is torn down.  [now]
    stands for the clock [releaseConnection] would read, which it does not
    for a connection without back-reference. *)
Definition destroy (now : Z) (c : ConnId) (s : Pool) : Pool :=
  let s1 :=
    if conn_pool s c then _removeConnection now c (detach c s) else s in
  set_trace (trace s1 ++ [Destroyed c]) s1.

(** [now > conn._lastReleased + timeout]; with [_lastReleased] undefined the
    sum is NaN and the comparison false. *)
Definition expired (now timeout : Z) (lastReleased : option Z) : bool :=
  match lastReleased with
  | Some t => (t + timeout <? now)%Z
  | None => false
  end.

(** The [while] loop of [_closeIdleConnections]; every turn takes one
    connection off the queue, so its length is fuel enough. *)
Fixpoint closeIdle_loop (fuel : nat) (now timeout : Z) (s : Pool) : Pool :=
  match fuel with
  | 0 => s
  | S fuel' =>
      match Denque.peek (_extraConnections s) with
      | None => s
      | Some conn =>
          if expired now timeout (conn_lastReleased s conn) then
            let s1 := set_extra (snd (Denque.shift (_extraConnections s))) s in
            closeIdle_loop fuel' now timeout (destroy now conn s1)
          else s
      end
  end.

Definition _closeIdleConnections (now : Z) (s : Pool) : Pool :=
  let timeout := (idleTimeout (config s) * 1000)%Z in
  closeIdle_loop (length (_extraConnections s)) now timeout s.

(** ** The scheduler and the callers *)

(** The scheduler runs the oldest deferred task. *)
Definition run_tick (s : Pool) : Pool :=
  match nextTick s with
  | [] => s
  | t :: ts =>
      let s1 := set_ticks ts s in
      match t with
      | TkInvoke cb a => invoke cb a s1
      | TkGetConnection cb => getConnection cb s1
      end
  end.

(** What can happen to a pool. *)
Inductive Op :=
| OpGetConnection (cb : Callback)
| OpRelease (now : Z) (c : ConnId)
| OpEnd (cb : option Callback)
| OpSweep (now : Z)                          (* the interval timer fires *)
| OpRemove (now : Z) (c : ConnId)
| OpTick
| OpConnected (i : nat) (err : option Error)
| OpEndReport (k : nat) (err : option Error)
| OpDetach (c : ConnId).

Definition exec (o : Op) (s : Pool) : Pool :=
  match o with
  | OpGetConnection cb => getConnection cb s
  | OpRelease now c => releaseConnection now c s
  | OpEnd cb => Pool_end cb s
  | OpSweep now => if _expiredTimer s then _closeIdleConnections now s else s
  | OpRemove now c => _removeConnection now c s
  | OpTick => run_tick s
  | OpConnected i err => connected i err s
  | OpEndReport k err => endCB k err s
  | OpDetach c => detach c s
  end.

Definition run (ops : list Op) (s : Pool) : Pool :=
  fold_left (fun s o => exec o s) ops s.

(** The states a pool created with [cfg] can be in. *)
Definition reachable (cfg : PoolConfig) (s : Pool) : Prop :=
  exists ops, s = run ops (Pool_new cfg).

(** ** [PoolConfig] (lib/pool_config.js) *)

(** The options the constructor reads; [None] is a field that is [null] or
    [undefined], and a field that is given is read through [Boolean] or
    [Number]. *)
Record Options := {
  opt_waitForConnections : option bool;
  opt_connectionLimit : option nat;
  opt_queueLimit : option nat;
  opt_minConnections : option nat;
  opt_idleTimeout : option Z
}.

Section PoolConfig.
(** lib/connection_config.js is not part of the sources: its result type,
    its parser of connection strings and its constructor are taken as they
    come; both may throw, which is [None]. *)
Variable ConnectionConfig : Type.
Variable parseUrl : String.string -> option Options.
Variable ConnectionConfig_new : Options -> option ConnectionConfig.

Definition parse_options (options : String.string + Options) : option Options :=
  match options with
  | inl url => parseUrl url
  | inr o => Some o
  end.

Definition PoolConfig_new (options : String.string + Options)
  : option (ConnectionConfig * PoolConfig) :=
  options ← parse_options options;
  connectionConfig ← ConnectionConfig_new options;
  let waitForConnections :=
    match opt_waitForConnections options with
    | None => true
    | Some b => b
    end in
  let connectionLimit :=
    match opt_connectionLimit options with
    | None => 10
    | Some n => n
    end in
  let queueLimit :=
    match opt_queueLimit options with
    | None => 0
    | Some n => n
    end in
  let minConnections :=
    Nat.min connectionLimit
      match opt_minConnections options with
      | None => connectionLimit
      | Some n => n
      end in
  let idleTimeout :=
    Z.max 15
      match opt_idleTimeout options with
      | None => 300%Z
      | Some t => t
      end in
  Some (connectionConfig,
        {| connectionLimit := connectionLimit;
           minConnections := minConnections;
           queueLimit := queueLimit;
           waitForConnections := waitForConnections;
           idleTimeout := idleTimeout |}).
End PoolConfig.

(** ** Who is called, and when *)

Global Instance Callback_eq_dec : EqDecision Callback.
Proof. solve_decision. Defined.

(** The arguments of the calls of [cb] in a trace, in order. *)
Fixpoint calls (cb : Callback) (t : list Event) : list Args :=
  match t with
  | [] => []
  | Invoke cb' a :: t' =>
      if decide (cb' = cb) then a :: calls cb t' else calls cb t'
  | _ :: t' => calls cb t'
  end.

(** The arguments of the deferred calls of [cb], in order. *)
Fixpoint deferred_calls (cb : Callback) (ts : list Task) : list Args :=
  match ts with
  | [] => []
  | TkInvoke cb' a :: ts' =>
      if decide (cb' = cb) then a :: deferred_calls cb ts'
      else deferred_calls cb ts'
  | _ :: ts' => deferred_calls cb ts'
  end.

(** The pool is at its limit of connections. *)
Definition at_capacity (s : Pool) : Prop :=
  connectionLimit (config s) <> 0
  /\ connectionLimit (config s) <= length (_allConnections s).

(** The results of the graceful ends, as they come in. *)
Definition reports (k : nat) (rs : list (option Error)) (s : Pool) : Pool :=
  fold_left (fun s err => endCB k err s) rs s.

(** ** The order of the extra queue *)

(** [a <= b] on stamps; a stamp that is not set compares false. *)
Definition stamp_le (a b : option Z) : bool :=
  match a, b with
  | Some x, Some y => (x <=? y)%Z
  | _, _ => false
  end.

Fixpoint ascending (l : list (option Z)) : bool :=
  match l with
  | a :: (b :: _) as l' => stamp_le a b && ascending l'
  | _ => true
  end.

(** [_extraConnections] is in ascending order of [_lastReleased]. *)
Definition extra_sorted (s : Pool) : bool :=
  ascending (map (conn_lastReleased s) (_extraConnections s)).

(** ** Pools to try things on *)

(** A pool with two idle connections, and one in use that has failed. *)
Definition removal_config : PoolConfig :=
  {| connectionLimit := 10; minConnections := 2; queueLimit := 0;
     waitForConnections := true; idleTimeout := 15 |}.

Definition removal_pool : Pool :=
  run [OpGetConnection (Cb 0); OpGetConnection (Cb 1); OpGetConnection (Cb 2);
       OpConnected 0 None; OpConnected 0 None; OpConnected 0 None;
       OpRelease 1000 0; OpRelease 2000 1;
       OpDetach 2; OpRemove 3000 2]
      (Pool_new removal_config).

(** A connection that is in none of the queues though its back-reference is
    set: it was unlinked, went back to the free queue and was taken again. *)
Definition relinked_pool : Pool :=
  run [OpGetConnection (Cb 0); OpConnected 0 None;
       OpRemove 1000 0; OpGetConnection (Cb 1); OpTick]
      (Pool_new removal_config).

(** Three connections, two of them released into the extra queue one second
    apart; then the third, still in use, fails and is removed. *)
Definition order_config : PoolConfig :=
  {| connectionLimit := 10; minConnections := 0; queueLimit := 0;
     waitForConnections := true; idleTimeout := 15 |}.

Definition order_pool : Pool :=
  run [OpGetConnection (Cb 0); OpGetConnection (Cb 1); OpGetConnection (Cb 2);
       OpConnected 0 None; OpConnected 0 None; OpConnected 0 None;
       OpRelease 1000 0; OpRelease 2000 1; OpDetach 2]
      (Pool_new order_config).

(** A pool of at most two connections and one waiter: both connections are
    in use and a third caller waits. *)
Definition scenario_config : PoolConfig :=
  {| connectionLimit := 2; minConnections := 1; queueLimit := 1;
     waitForConnections := true; idleTimeout := 15 |}.

Definition full_pool : Pool :=
  run [OpGetConnection (Cb 0); OpGetConnection (Cb 1);
       OpConnected 0 None; OpConnected 0 None; OpGetConnection (Cb 2)]
      (Pool_new scenario_config).

(** The same pool after [end] with continuation 9. *)
Definition ended_pool : Pool := Pool_end (Some (Cb 9)) full_pool.

(** Options that give more [minConnections] than the default limit and less
    [idleTimeout] than the floor. *)
Definition sample_options : Options :=
  {| opt_waitForConnections := None; opt_connectionLimit := None;
     opt_queueLimit := None; opt_minConnections := Some 50;
     opt_idleTimeout := Some 5%Z |}.

(** What [PoolConfig] makes of [sample_options]. *)
Definition sample_config : PoolConfig :=
  {| connectionLimit := 10; minConnections := 10; queueLimit := 0;
     waitForConnections := true; idleTimeout := 15 |}.

(** ** What the pool keeps true *)

(** The fields of the pool itself and the connections, without the
    scheduler, the pending establishments and shutdowns, and the trace. *)
Definition pool_fields (s : Pool) :=
  (config s, _allConnections s, _freeConnections s, _extraConnections s,
   _connectionQueue s, _closed s, _expiredTimer s, heap s, next_conn s).

(** The eviction timer runs exactly while an open pool tracks connections. *)
Definition timer_ok (s : Pool) : Prop :=
  _expiredTimer s = true <-> (_closed s = false /\ _allConnections s <> []).

Definition waiters_bounded (s : Pool) : Prop :=
  queueLimit (config s) = 0
  \/ length (_connectionQueue s) <= queueLimit (config s).

Definition free_bounded (s : Pool) : Prop :=
  length (_freeConnections s) <= minConnections (config s).

(** The tracked connections are objects the pool has made, each tracked
    once. *)
Definition ids_fresh (s : Pool) : Prop :=
  (forall c, c ∈ _allConnections s -> c < next_conn s)
  /\ (forall c, is_Some (heap s !! c) -> c < next_conn s)
  /\ NoDup (_allConnections s).

Definition extra_stamped (s : Pool) : Prop :=
  Forall (fun c => is_Some (conn_lastReleased s c)) (_extraConnections s).

Definition pool_inv (s : Pool) : Prop :=
  waiters_bounded s /\ free_bounded s /\ ids_fresh s /\ extra_stamped s.

(** ** What the pool owes its callers *)

Definition hit (cb' cb : Callback) : nat := if decide (cb' = cb) then 1 else 0.

(** The deferred tasks that will call [cb] or acquire for it. *)
Fixpoint owed_ticks (cb : Callback) (ts : list Task) : nat :=
  match ts with
  | [] => 0
  | TkInvoke cb' _ :: ts' => hit cb' cb + owed_ticks cb ts'
  | TkGetConnection cb' :: ts' => hit cb' cb + owed_ticks cb ts'
  end.

Fixpoint waiting (cb : Callback) (q : list Callback) : nat :=
  match q with
  | [] => 0
  | cb' :: q' => hit cb' cb + waiting cb q'
  end.

Fixpoint establishing (cb : Callback) (l : list (ConnId * Callback)) : nat :=
  match l with
  | [] => 0
  | p :: l' => hit p.2 cb + establishing cb l'
  end.

(** What a shutdown still owes its continuation. *)
Definition pending_end (cb : Callback) (ctx : EndCtx) : nat :=
  if calledBack ctx then 0 else hit (end_cb ctx) cb.

Fixpoint shutting (cb : Callback) (l : list EndCtx) : nat :=
  match l with
  | [] => 0
  | ctx :: l' => pending_end cb ctx + shutting cb l'
  end.

(** The calls of [cb] made so far and those the pool still holds: deferred,
    waiting, with an establishment, or with a shutdown. *)
Definition owed (cb : Callback) (s : Pool) : nat :=
  length (calls cb (trace s)) + owed_ticks cb (nextTick s)
  + waiting cb (_connectionQueue s) + establishing cb (connecting s)
  + shutting cb (ending s).

(** What an operation asks for on behalf of [cb]. *)
Definition request (cb : Callback) (o : Op) : nat :=
  match o with
  | OpGetConnection cb' => hit cb' cb
  | OpEnd cb' => hit (default ThrowIfError cb') cb
  | _ => 0
  end.

Fixpoint requests (cb : Callback) (ops : list Op) : nat :=
  match ops with
  | [] => 0
  | o :: ops' => request cb o + requests cb ops'
  end.

(** The options that say what a configuration holds. *)
Definition options_of (cfg : PoolConfig) : Options :=
  {| opt_waitForConnections := Some (waitForConnections cfg);
     opt_connectionLimit := Some (connectionLimit cfg);
     opt_queueLimit := Some (queueLimit cfg);
     opt_minConnections := Some (minConnections cfg);
     opt_idleTimeout := Some (idleTimeout cfg) |}.

(** One connection, in use. *)
Definition busy_pool : Pool :=
  run [OpGetConnection (Cb 0); OpConnected 0 None] (Pool_new order_config).

(** [full_pool] when connection 0 has failed in use. *)
Definition failing_pool : Pool := exec (OpDetach 0) full_pool.

(** A pool without a limit, three connections asked for. *)
Definition unbounded_config : PoolConfig :=
  {| connectionLimit := 0; minConnections := 0; queueLimit := 1;
     waitForConnections := true; idleTimeout := 15 |}.

Definition unbounded_pool : Pool :=
  run [OpGetConnection (Cb 0); OpGetConnection (Cb 1); OpGetConnection (Cb 2)]
      (Pool_new unbounded_config).

(** Three idle connections in the extra queue, the first two released long
    before the third. *)
Definition sweep_pool : Pool :=
  run [OpGetConnection (Cb 0); OpGetConnection (Cb 1); OpGetConnection (Cb 2);
       OpConnected 0 None; OpConnected 0 None; OpConnected 0 None;
       OpRelease 1000 0; OpRelease 2000 1; OpRelease 10000 2]
      (Pool_new order_config).

(** Two connections in use and two callers waiting. *)
Definition two_waiters_config : PoolConfig :=
  {| connectionLimit := 2; minConnections := 1; queueLimit := 0;
     waitForConnections := true; idleTimeout := 15 |}.

Definition two_waiters_pool : Pool :=
  run [OpGetConnection (Cb 0); OpGetConnection (Cb 1);
       OpConnected 0 None; OpConnected 0 None;
       OpGetConnection (Cb 2); OpGetConnection (Cb 3)]
      (Pool_new two_waiters_config).

(** * Properties *)

(** ** Queues *)

Lemma pop_push {A} (q : list A) (x : A) :
  Denque.pop (Denque.push q x) = (Some x, q).
Proof.
  unfold Denque.pop, Denque.push.
  by rewrite last_snoc, removelast_last.
Qed.

(** ** Acquire *)

(** The scheduler, reaching a deferred call, makes it. *)
Lemma run_tick_invoke cb a ts s :
  nextTick s = TkInvoke cb a :: ts ->
  run_tick s = invoke cb a (set_ticks ts s).
Proof. intros H. unfold run_tick. by rewrite H. Qed.

Lemma run_tick_getConnection cb ts s :
  nextTick s = TkGetConnection cb :: ts ->
  run_tick s = getConnection cb (set_ticks ts s).
Proof. intros H. unfold run_tick. by rewrite H. Qed.

Lemma getConnection_free cb c q s :
  _closed s = false -> _freeConnections s = c :: q ->
  getConnection cb s = defer (TkInvoke cb (ArgConn c)) (set_free q s).
Proof.
  intros Hc Hf. unfold getConnection. by rewrite Hc, Hf.
Qed.

Lemma getConnection_extra cb c q s :
  _closed s = false -> _freeConnections s = [] ->
  _extraConnections s = q ++ [c] ->
  getConnection cb s = defer (TkInvoke cb (ArgConn c)) (set_extra q s).
Proof.
  intros Hc Hf He.
  assert (E1 : (0 <? length (_freeConnections s)) = false) by (by rewrite Hf).
  assert (E2 : (0 <? length (_extraConnections s)) = true).
  { rewrite He, length_app. apply Nat.ltb_lt. simpl. lia. }
  assert (E3 : Denque.pop (_extraConnections s) = (Some c, q)).
  { rewrite He. apply pop_push. }
  unfold getConnection. rewrite Hc, E1. cbv beta iota zeta.
  by rewrite E2, E3.
Qed.

(** Without an idle connection, an open pool goes on to its limits. *)
Lemma getConnection_no_idle cb s :
  _closed s = false -> _freeConnections s = [] -> _extraConnections s = [] ->
  getConnection cb s =
    if (connectionLimit (config s) =? 0)
       || (length (_allConnections s) <? connectionLimit (config s))
    then
      let '(c, s3) := new_PoolConnection s in
      let s4 := _startExpiredTimer s3 in
      connect c cb (set_all (Denque.push (_allConnections s4) c) s4)
    else if negb (waitForConnections (config s)) then
      defer (TkInvoke cb (ArgErr NoConnectionsAvailable)) s
    else if negb (queueLimit (config s) =? 0)
            && (queueLimit (config s) <=? length (_connectionQueue s))
    then invoke cb (ArgErr QueueLimitReached) s
    else set_queue (Denque.push (_connectionQueue s) cb) (emit EvEnqueue s).
Proof.
  intros Hc Hf He. unfold getConnection. rewrite Hc, Hf. simpl.
  rewrite He. reflexivity.
Qed.

(** [getConnection] leaves [_allConnections] alone or appends a new
    connection, and the latter only without idle connections and below the
    limit. *)
Lemma getConnection_all cb s :
  _allConnections (getConnection cb s) = _allConnections s
  \/ (_allConnections (getConnection cb s) = _allConnections s ++ [next_conn s]
      /\ _closed s = false
      /\ _freeConnections s = [] /\ _extraConnections s = []
      /\ (connectionLimit (config s) = 0
          \/ length (_allConnections s) < connectionLimit (config s))).
Proof.
  destruct (_closed s) eqn:Hc.
  { left. unfold getConnection. by rewrite Hc. }
  destruct (_freeConnections s) as [|c q] eqn:Hf.
  2:{ left. by rewrite (getConnection_free cb c q). }
  destruct (_extraConnections s) as [|c q _] eqn:He using rev_ind.
  2:{ left. by rewrite (getConnection_extra cb c q). }
  rewrite getConnection_no_idle by done.
  destruct (connectionLimit (config s) =? 0) eqn:H0; simpl.
  { right. apply Nat.eqb_eq in H0. unfold _startExpiredTimer.
    destruct (_expiredTimer s) eqn:Ht; simpl; rewrite Ht; simpl; auto 10. }
  destruct (length (_allConnections s) <? connectionLimit (config s)) eqn:H1.
  { right. apply Nat.ltb_lt in H1. unfold _startExpiredTimer.
    destruct (_expiredTimer s) eqn:Ht; simpl; rewrite Ht; simpl; auto 10. }
  left.
  destruct (waitForConnections (config s)); simpl; [|done].
  by destruct (negb (queueLimit (config s) =? 0)
               && (queueLimit (config s) <=? length (_connectionQueue s))).
Qed.

(** C1: in an open pool with an idle connection, [getConnection] takes the
    front of [_freeConnections] when there is one, else the back of
    [_extraConnections]; it calls nothing itself, but defers the call of the
    continuation with exactly that connection, which the scheduler makes when
    it reaches it; and a connection is created (and registered) only when
    both idle queues are empty. *)
Theorem C1_getConnection_idle (cb : Callback) (s : Pool) :
  _closed s = false ->
  (forall c q, _freeConnections s = c :: q ->
     getConnection cb s = defer (TkInvoke cb (ArgConn c)) (set_free q s)
     /\ _freeConnections (getConnection cb s) = q
     /\ _extraConnections (getConnection cb s) = _extraConnections s
     /\ nextTick (getConnection cb s) = nextTick s ++ [TkInvoke cb (ArgConn c)]
     /\ trace (getConnection cb s) = trace s)
  /\ (forall c q, _freeConnections s = [] -> _extraConnections s = q ++ [c] ->
     getConnection cb s = defer (TkInvoke cb (ArgConn c)) (set_extra q s)
     /\ _freeConnections (getConnection cb s) = []
     /\ _extraConnections (getConnection cb s) = q
     /\ nextTick (getConnection cb s) = nextTick s ++ [TkInvoke cb (ArgConn c)]
     /\ trace (getConnection cb s) = trace s)
  /\ (forall c ts s1, nextTick s1 = TkInvoke cb (ArgConn c) :: ts ->
     trace (run_tick s1) = trace s1 ++ [Invoke cb (ArgConn c)])
  /\ ((_allConnections (getConnection cb s) <> _allConnections s
       \/ next_conn (getConnection cb s) <> next_conn s
       \/ connecting (getConnection cb s) <> connecting s) ->
      _freeConnections s = [] /\ _extraConnections s = []).
Proof.
  intros Hc. repeat split.
  - by apply getConnection_free.
  - by rewrite (getConnection_free cb c q).
  - by rewrite (getConnection_free cb c q).
  - by rewrite (getConnection_free cb c q).
  - by rewrite (getConnection_free cb c q).
  - by apply getConnection_extra.
  - by rewrite (getConnection_extra cb c q).
  - by rewrite (getConnection_extra cb c q).
  - by rewrite (getConnection_extra cb c q).
  - by rewrite (getConnection_extra cb c q).
  - intros c ts s1 H. by rewrite (run_tick_invoke cb (ArgConn c) ts).
  - destruct (_freeConnections s) as [|c q] eqn:Hf; [done|].
    rewrite (getConnection_free cb c q) in H by done. simpl in H.
    by destruct H as [H|[H|H]].
  - destruct (_freeConnections s) as [|c q] eqn:Hf.
    + destruct (_extraConnections s) as [|c q _] eqn:He using rev_ind; [done|].
      rewrite (getConnection_extra cb c q) in H by done. simpl in H.
      by destruct H as [H|[H|H]].
    + rewrite (getConnection_free cb c q) in H by done. simpl in H.
      by destruct H as [H|[H|H]].
Qed.

(** ** Who is called, and when *)



Lemma calls_app cb t1 t2 : calls cb (t1 ++ t2) = calls cb t1 ++ calls cb t2.
Proof.
  induction t1 as [|e t1 IH]; [done|]. simpl.
  destruct e; try done. case_decide; simpl; by rewrite IH.
Qed.

Lemma deferred_calls_app cb t1 t2 :
  deferred_calls cb (t1 ++ t2) = deferred_calls cb t1 ++ deferred_calls cb t2.
Proof.
  induction t1 as [|e t1 IH]; [done|]. simpl.
  destruct e; try done. case_decide; simpl; by rewrite IH.
Qed.

Lemma calls_invoke cb a s :
  calls cb (trace (invoke cb a s)) = calls cb (trace s) ++ [a].
Proof. simpl. rewrite calls_app. simpl. by rewrite decide_True. Qed.

Lemma deferred_calls_defer cb a s :
  deferred_calls cb (nextTick (defer (TkInvoke cb a) s))
  = deferred_calls cb (nextTick s) ++ [a].
Proof. simpl. rewrite deferred_calls_app. simpl. by rewrite decide_True. Qed.



Lemma at_capacity_test s :
  at_capacity s ->
  (connectionLimit (config s) =? 0)
  || (length (_allConnections s) <? connectionLimit (config s)) = false.
Proof.
  intros [H0 H1]. apply orb_false_iff. split.
  - by apply Nat.eqb_neq.
  - apply Nat.ltb_ge. lia.
Qed.

(** C2: a failure that [getConnection] decides reaches the continuation
    once.  For a closed pool, and for a pool at its limit that does not let
    callers wait, the call with the error is deferred: nothing is called
    within [getConnection], one call is added to the deferred ones, the
    continuation does not join the waiters, and the scheduler makes the call
    when it reaches it.  With [queueLimit] positive and that many waiters
    already, the continuation is called with the error inside
    [getConnection] itself, nothing is deferred and the waiters stay as they
    are; below that number of waiters the continuation joins them.  A
    failure that shows only when the establishment of a new connection ends
    (the pool closed meanwhile, or the error of the establishment) is not
    decided in [getConnection]: the closure given to [connect] calls the
    continuation with it, once, and is gone. *)
Theorem C2_getConnection_failures (cb : Callback) (s : Pool) :
  (_closed s = true ->
     getConnection cb s = defer (TkInvoke cb (ArgErr PoolClosed)) s
     /\ calls cb (trace (getConnection cb s)) = calls cb (trace s)
     /\ deferred_calls cb (nextTick (getConnection cb s))
        = deferred_calls cb (nextTick s) ++ [ArgErr PoolClosed]
     /\ _connectionQueue (getConnection cb s) = _connectionQueue s
     /\ connecting (getConnection cb s) = connecting s)
  /\ (_closed s = false ->
      _freeConnections s = [] -> _extraConnections s = [] ->
      at_capacity s -> waitForConnections (config s) = false ->
     getConnection cb s = defer (TkInvoke cb (ArgErr NoConnectionsAvailable)) s
     /\ calls cb (trace (getConnection cb s)) = calls cb (trace s)
     /\ deferred_calls cb (nextTick (getConnection cb s))
        = deferred_calls cb (nextTick s) ++ [ArgErr NoConnectionsAvailable]
     /\ _connectionQueue (getConnection cb s) = _connectionQueue s
     /\ connecting (getConnection cb s) = connecting s)
  /\ (_closed s = false ->
      _freeConnections s = [] -> _extraConnections s = [] ->
      at_capacity s -> waitForConnections (config s) = true ->
      0 < queueLimit (config s) ->
      queueLimit (config s) <= length (_connectionQueue s) ->
     getConnection cb s = invoke cb (ArgErr QueueLimitReached) s
     /\ calls cb (trace (getConnection cb s))
        = calls cb (trace s) ++ [ArgErr QueueLimitReached]
     /\ nextTick (getConnection cb s) = nextTick s
     /\ _connectionQueue (getConnection cb s) = _connectionQueue s
     /\ connecting (getConnection cb s) = connecting s)
  /\ (_closed s = false ->
      _freeConnections s = [] -> _extraConnections s = [] ->
      at_capacity s -> waitForConnections (config s) = true ->
      length (_connectionQueue s) < queueLimit (config s) ->
     _connectionQueue (getConnection cb s) = _connectionQueue s ++ [cb]
     /\ calls cb (trace (getConnection cb s)) = calls cb (trace s)
     /\ nextTick (getConnection cb s) = nextTick s)
  /\ (forall e ts s1, nextTick s1 = TkInvoke cb (ArgErr e) :: ts ->
     calls cb (trace (run_tick s1)) = calls cb (trace s1) ++ [ArgErr e]
     /\ nextTick (run_tick s1) = ts)
  /\ (forall i c err, connecting s !! i = Some (c, cb) ->
     connecting (connected i err s) = delete i (connecting s)
     /\ nextTick (connected i err s) = nextTick s
     /\ (_closed s = true ->
         calls cb (trace (connected i err s))
         = calls cb (trace s) ++ [ArgErr PoolClosed])
     /\ (forall e, _closed s = false -> err = Some e ->
         calls cb (trace (connected i err s)) = calls cb (trace s) ++ [ArgErr e])).
Proof.
  split; [|split; [|split; [|split; [|split]]]].
  - intros Hc.
    assert (E : getConnection cb s = defer (TkInvoke cb (ArgErr PoolClosed)) s).
    { unfold getConnection. by rewrite Hc. }
    rewrite E. split; [done|]. split; [done|].
    split; [apply deferred_calls_defer|done].
  - intros Hc Hf He Hcap Hw.
    assert (E : getConnection cb s
                = defer (TkInvoke cb (ArgErr NoConnectionsAvailable)) s).
    { rewrite getConnection_no_idle by done.
      rewrite at_capacity_test by done. by rewrite Hw. }
    rewrite E. split; [done|]. split; [done|].
    split; [apply deferred_calls_defer|done].
  - intros Hc Hf He Hcap Hw Hq Hlen.
    assert (E : getConnection cb s = invoke cb (ArgErr QueueLimitReached) s).
    { rewrite getConnection_no_idle by done.
      rewrite at_capacity_test by done. rewrite Hw. simpl.
      replace (queueLimit (config s) =? 0) with false
        by (symmetry; apply Nat.eqb_neq; lia).
      replace (queueLimit (config s) <=? length (_connectionQueue s)) with true
        by (symmetry; by apply Nat.leb_le).
      done. }
    rewrite E. split; [done|]. split; [apply calls_invoke|done].
  - intros Hc Hf He Hcap Hw Hlen.
    rewrite getConnection_no_idle by done.
    rewrite at_capacity_test by done. rewrite Hw. simpl.
    replace (queueLimit (config s) <=? length (_connectionQueue s)) with false
      by (symmetry; apply Nat.leb_gt; lia).
    rewrite andb_false_r. simpl. split; [done|]. split; [|done].
    rewrite calls_app. simpl. by rewrite app_nil_r.
  - intros e ts s1 H. rewrite (run_tick_invoke cb (ArgErr e) ts) by done.
    split; [|done]. simpl. rewrite calls_app. simpl. by rewrite decide_True.
  - intros i c err Hi. unfold connected. rewrite Hi. simpl.
    destruct (_closed s) eqn:Hc.
    + split; [done|]. split; [done|]. split; [|done].
      intros _. simpl. rewrite calls_app. simpl. by rewrite decide_True.
    + destruct err as [e|]; simpl; (split; [done|]); (split; [done|]);
        (split; [done|]); intros e' _ [=]; subst.
      rewrite calls_app. simpl. by rewrite decide_True.
Qed.

(** ** Release *)

(** C3: releasing a connection whose back-reference is set.  With a waiter,
    the oldest one leaves the queue and its call with exactly this connection
    is deferred, and the idle queues stay as they are; without a waiter the
    connection goes to the tail of [_extraConnections], stamped with the
    current time, when [_freeConnections] holds [minConnections] or more,
    and else to the tail of [_freeConnections], not stamped. *)
Theorem C3_releaseConnection (now : Z) (c : ConnId) (s : Pool) :
  conn_pool s c = true ->
  (forall cb q, _connectionQueue s = cb :: q ->
     releaseConnection now c s = defer (TkInvoke cb (ArgConn c)) (set_queue q s)
     /\ _connectionQueue (releaseConnection now c s) = q
     /\ nextTick (releaseConnection now c s) = nextTick s ++ [TkInvoke cb (ArgConn c)]
     /\ trace (releaseConnection now c s) = trace s
     /\ _freeConnections (releaseConnection now c s) = _freeConnections s
     /\ _extraConnections (releaseConnection now c s) = _extraConnections s
     /\ heap (releaseConnection now c s) = heap s)
  /\ (_connectionQueue s = [] ->
      minConnections (config s) <= length (_freeConnections s) ->
     _extraConnections (releaseConnection now c s) = _extraConnections s ++ [c]
     /\ conn_lastReleased (releaseConnection now c s) c = Some now
     /\ _freeConnections (releaseConnection now c s) = _freeConnections s
     /\ nextTick (releaseConnection now c s) = nextTick s
     /\ trace (releaseConnection now c s) = trace s)
  /\ (_connectionQueue s = [] ->
      length (_freeConnections s) < minConnections (config s) ->
     releaseConnection now c s = set_free (_freeConnections s ++ [c]) s
     /\ _freeConnections (releaseConnection now c s) = _freeConnections s ++ [c]
     /\ _extraConnections (releaseConnection now c s) = _extraConnections s
     /\ heap (releaseConnection now c s) = heap s)
  /\ (forall cb ts s1, nextTick s1 = TkInvoke cb (ArgConn c) :: ts ->
     trace (run_tick s1) = trace s1 ++ [Invoke cb (ArgConn c)]).
Proof.
  intros Hp. split; [|split; [|split]].
  - intros cb q Hq. unfold releaseConnection. by rewrite Hp, Hq.
  - intros Hq Hmin. unfold releaseConnection. rewrite Hp, Hq. simpl.
    replace (minConnections (config s) <=? length (_freeConnections s)) with true
      by (symmetry; by apply Nat.leb_le).
    simpl. split; [done|]. split; [|done].
    unfold conn_lastReleased, conn_pool in *. simpl.
    rewrite lookup_alter_eq. by destruct (heap s !! c).
  - intros Hq Hmin. unfold releaseConnection. rewrite Hp, Hq. simpl.
    replace (minConnections (config s) <=? length (_freeConnections s)) with false
      by (symmetry; apply Nat.leb_gt; lia).
    done.
  - intros cb ts s1 H. by rewrite (run_tick_invoke cb (ArgConn c) ts).
Qed.

(** ** The bound on the number of connections *)

Ltac break_match :=
  repeat match goal with
    | |- context [match ?x with _ => _ end] => destruct x eqn:?; simpl
    end.

Lemma splice_loop_length n q c : length (splice_loop n q c) <= length q.
Proof.
  revert q. induction n as [|n IH]; intros q; simpl; [done|].
  destruct q as [|x q]; simpl; [done|].
  destruct (x =? c); [lia|].
  etransitivity; [apply IH|]. unfold Denque.push. rewrite length_app. simpl. lia.
Qed.

Lemma spliceConnection_length q c : length (spliceConnection q c) <= length q.
Proof.
  unfold spliceConnection. destruct (length q =? 0); [done|].
  destruct (Denque.get q (length q - 1)) as [y|]; [|done].
  destruct (y =? c).
  - simpl. destruct q as [|x q _] using rev_ind; [done|].
    rewrite removelast_last, length_app. lia.
  - apply splice_loop_length.
Qed.

Lemma getConnection_config cb s : config (getConnection cb s) = config s.
Proof.
  destruct (_closed s) eqn:Hc.
  { unfold getConnection. by rewrite Hc. }
  destruct (_freeConnections s) as [|c q] eqn:Hf.
  2:{ by rewrite (getConnection_free cb c q). }
  destruct (_extraConnections s) as [|c q _] eqn:He using rev_ind.
  2:{ by rewrite (getConnection_extra cb c q). }
  rewrite getConnection_no_idle by done.
  unfold new_PoolConnection, _startExpiredTimer. break_match; reflexivity.
Qed.

Lemma releaseConnection_frame now c s :
  config (releaseConnection now c s) = config s
  /\ _allConnections (releaseConnection now c s) = _allConnections s
  /\ _closed (releaseConnection now c s) = _closed s.
Proof. unfold releaseConnection, Denque.shift. break_match; done. Qed.

Lemma endCB_frame k err s :
  config (endCB k err s) = config s
  /\ _allConnections (endCB k err s) = _allConnections s
  /\ _freeConnections (endCB k err s) = _freeConnections s
  /\ _extraConnections (endCB k err s) = _extraConnections s
  /\ _connectionQueue (endCB k err s) = _connectionQueue s
  /\ _closed (endCB k err s) = _closed s
  /\ heap (endCB k err s) = heap s.
Proof. unfold endCB. break_match; done. Qed.

Lemma end_loop_frame k conns s :
  config (end_loop k conns s) = config s
  /\ _allConnections (end_loop k conns s) = _allConnections s
  /\ ending (end_loop k conns s) = ending s
  /\ trace (end_loop k conns s) = trace s ++ map (fun c => RealEndReq c k) conns.
Proof.
  revert s. induction conns as [|c conns IH]; intros s; simpl.
  - by rewrite app_nil_r.
  - destruct (IH (_realEnd k c s)) as (-> & -> & -> & ->). simpl.
    by rewrite <- app_assoc.
Qed.

Lemma Pool_end_frame cb s :
  config (Pool_end cb s) = config s
  /\ _allConnections (Pool_end cb s) = _allConnections s.
Proof.
  unfold Pool_end, _stopExpiredTimer.
  destruct (_expiredTimer (set_closed true s)) eqn:Ht; simpl;
    (destruct (length (_allConnections s) =? 0);
     [ match goal with |- context [endCB ?k ?e ?x] =>
         destruct (endCB_frame k e x) as (-> & -> & _) end; done
     | match goal with |- context [end_loop ?k ?l ?x] =>
         destruct (end_loop_frame k l x) as (-> & -> & _) end; done ]).
Qed.

Lemma _removeConnection_frame now c s :
  config (_removeConnection now c s) = config s
  /\ _allConnections (_removeConnection now c s)
     = spliceConnection (_allConnections s) c.
Proof.
  unfold _removeConnection.
  match goal with |- context [releaseConnection now c ?x] =>
    destruct (releaseConnection_frame now c x) as (Hc & Ha & _);
    set (r := releaseConnection now c x) in * end.
  unfold _stopExpiredTimer.
  destruct (length (_allConnections r) =? 0); [destruct (_expiredTimer r)|];
    simpl; rewrite Hc, Ha; done.
Qed.

(** What every turn of the loop keeps, the loop keeps. *)
Lemma closeIdle_loop_inv (P : Pool -> Prop) fuel now timeout s :
  (forall s0 c q, _extraConnections s0 = c :: q -> P s0 ->
     P (destroy now c (set_extra q s0))) ->
  P s -> P (closeIdle_loop fuel now timeout s).
Proof.
  intros Hstep. revert s. induction fuel as [|fuel IH]; intros s HP; simpl;
    [done|].
  destruct (_extraConnections s) as [|c q] eqn:E; simpl; [done|].
  destruct (expired now timeout (conn_lastReleased s c)); [|done].
  apply IH. by apply Hstep.
Qed.

Lemma destroy_frame now c s :
  config (destroy now c s) = config s
  /\ length (_allConnections (destroy now c s)) <= length (_allConnections s).
Proof.
  unfold destroy. destruct (conn_pool s c); simpl; [|done].
  destruct (_removeConnection_frame now c (detach c s)) as (-> & ->).
  split; [done|apply spliceConnection_length].
Qed.

Lemma closeIdle_loop_frame fuel now timeout s :
  config (closeIdle_loop fuel now timeout s) = config s
  /\ length (_allConnections (closeIdle_loop fuel now timeout s))
     <= length (_allConnections s).
Proof.
  apply (closeIdle_loop_inv
           (fun s0 => config s0 = config s
                      /\ length (_allConnections s0) <= length (_allConnections s)));
    [|done].
  intros s0 c q _ [Hc Hl].
  destruct (destroy_frame now c (set_extra q s0)) as [E1 E2]. simpl in *.
  split; [congruence|lia].
Qed.

Lemma connected_frame i err s :
  config (connected i err s) = config s
  /\ _allConnections (connected i err s) = _allConnections s.
Proof. unfold connected. break_match; done. Qed.

(** Every operation keeps the configuration, and only [getConnection] (also
    when the scheduler runs it for a waiter) makes [_allConnections] longer:
    by one, and below the limit. *)
Lemma exec_all o s :
  config (exec o s) = config s
  /\ (length (_allConnections (exec o s)) <= length (_allConnections s)
      \/ (length (_allConnections (exec o s)) = S (length (_allConnections s))
          /\ (connectionLimit (config s) = 0
              \/ length (_allConnections s) < connectionLimit (config s)))).
Proof.
  assert (G : forall cb s,
    config (getConnection cb s) = config s
    /\ (length (_allConnections (getConnection cb s)) <= length (_allConnections s)
        \/ (length (_allConnections (getConnection cb s))
            = S (length (_allConnections s))
            /\ (connectionLimit (config s) = 0
                \/ length (_allConnections s) < connectionLimit (config s))))).
  { intros cb s0. split; [apply getConnection_config|].
    destruct (getConnection_all cb s0) as [->|(-> & _ & _ & _ & H)].
    - by left.
    - right. rewrite length_app. simpl. split; [lia|done]. }
  destruct o; simpl.
  - apply G.
  - destruct (releaseConnection_frame now c s) as (-> & -> & _). auto.
  - destruct (Pool_end_frame cb s) as (-> & ->). auto.
  - destruct (_expiredTimer s); [|auto].
    unfold _closeIdleConnections.
    match goal with |- context [closeIdle_loop ?f ?n ?t ?x] =>
      destruct (closeIdle_loop_frame f n t x) as (-> & ?) end. auto.
  - destruct (_removeConnection_frame now c s) as (-> & ->).
    split; [done|]. left. apply spliceConnection_length.
  - unfold run_tick. destruct (nextTick s) as [|[cb a|cb] ts]; simpl; auto.
    apply (G cb (set_ticks ts s)).
  - destruct (connected_frame i err s) as (-> & ->). auto.
  - destruct (endCB_frame k err s) as (-> & -> & _). auto.
  - auto.
Qed.

Lemma run_snoc ops o s : run (ops ++ [o]) s = exec o (run ops s).
Proof. unfold run. by rewrite fold_left_app. Qed.

Lemma reachable_config cfg s : reachable cfg s -> config s = cfg.
Proof.
  intros [ops ->]. induction ops as [|o ops IH] using rev_ind; [done|].
  rewrite run_snoc. by destruct (exec_all o (run ops (Pool_new cfg))) as [-> _].
Qed.

(** C4: with a limit that is not zero, no state a pool can reach holds more
    than [connectionLimit] connections: [getConnection] appends a connection
    to [_allConnections] only with a zero limit or below the limit, and every
    other operation leaves [_allConnections] as long as it was or shorter. *)
Theorem C4_connectionLimit_bound :
  (forall cfg s, connectionLimit cfg <> 0 -> reachable cfg s ->
     length (_allConnections s) <= connectionLimit cfg)
  /\ (forall cb s,
        _allConnections (getConnection cb s) <> _allConnections s ->
        _allConnections (getConnection cb s) = _allConnections s ++ [next_conn s]
        /\ (connectionLimit (config s) = 0
            \/ length (_allConnections s) < connectionLimit (config s)))
  /\ (forall o s,
        (forall cb, o <> OpGetConnection cb) ->
        (forall cb ts, o = OpTick -> nextTick s <> TkGetConnection cb :: ts) ->
        length (_allConnections (exec o s)) <= length (_allConnections s)).
Proof.
  split; [|split].
  - intros cfg s Hlim [ops ->].
    induction ops as [|o ops IH] using rev_ind; [simpl; lia|].
    rewrite run_snoc.
    pose proof (reachable_config cfg (run ops (Pool_new cfg))
                  (ex_intro _ ops eq_refl)) as Hcfg.
    destruct (exec_all o (run ops (Pool_new cfg))) as [_ [H|[H1 H2]]].
    + lia.
    + rewrite Hcfg in H2. lia.
  - intros cb s H. destruct (getConnection_all cb s) as [E|(E & _ & _ & _ & L)];
      [done|]. by split.
  - intros o s Hget Htick. destruct o; simpl.
    + by destruct (Hget cb).
    + by destruct (releaseConnection_frame now c s) as (_ & -> & _).
    + by destruct (Pool_end_frame cb s) as (_ & ->).
    + destruct (_expiredTimer s); [|done]. unfold _closeIdleConnections.
      match goal with |- context [closeIdle_loop ?f ?n ?t ?x] =>
        by destruct (closeIdle_loop_frame f n t x) as (_ & ?) end.
    + destruct (_removeConnection_frame now c s) as (_ & ->).
      apply spliceConnection_length.
    + unfold run_tick. destruct (nextTick s) as [|[cb a|cb] ts] eqn:E; simpl; auto.
      by destruct (Htick cb ts).
    + by destruct (connected_frame i err s) as (_ & ->).
    + by destruct (endCB_frame k err s) as (_ & -> & _).
    + done.
Qed.

(** ** The eviction sweep *)



(** C6 (what the code does): on an extra queue in ascending order that
    holds connection 0, released at 1000, connection 1, released at 2000,
    and connection 2, released at 10000, the sweep at 20000 (fifteen
    seconds of timeout) takes connection 0 off and destroys it; destroying
    unlinks it from the pool, and the scan of the extra queue for it, which
    does not find it, turns the queue to 2, 1.  The loop then meets
    connection 2, not expired, and stops: connection 1, expired as well, is
    neither taken off nor destroyed. *)
Theorem C6_sweep_leaves_expired_behind :
  reachable order_config sweep_pool
  /\ _extraConnections sweep_pool = [0; 1; 2]
  /\ map (conn_lastReleased sweep_pool) [0; 1; 2]
     = [Some 1000%Z; Some 2000%Z; Some 10000%Z]
  /\ extra_sorted sweep_pool = true
  /\ map (fun c => expired 20000 (idleTimeout (config sweep_pool) * 1000)
                     (conn_lastReleased sweep_pool c)) [0; 1; 2]
     = [true; true; false]
  /\ _extraConnections (_closeIdleConnections 20000 sweep_pool) = [2; 1]
  /\ trace (_closeIdleConnections 20000 sweep_pool)
     = trace sweep_pool ++ [Destroyed 0]
  /\ _allConnections (_closeIdleConnections 20000 sweep_pool) = [1; 2].
Proof.
  split; [by eexists|]. vm_compute. by repeat split.
Qed.

(** ** Shutdown *)

Lemma _stopExpiredTimer_eq s : _stopExpiredTimer s = set_timer false s.
Proof. destruct s as [? ? ? ? ? ? []]; reflexivity. Qed.



Lemma reports_app k rs1 rs2 s :
  reports k (rs1 ++ rs2) s = reports k rs2 (reports k rs1 s).
Proof. apply fold_left_app. Qed.

Lemma reports_called k rs s ctx :
  ending s !! k = Some ctx -> calledBack ctx = true -> reports k rs s = s.
Proof.
  intros Hk Hc. induction rs as [|r rs IH]; [done|]. simpl.
  replace (endCB k r s) with s; [done|]. unfold endCB. by rewrite Hk, Hc.
Qed.

Lemma endCB_error k e s ctx :
  ending s !! k = Some ctx -> calledBack ctx = false ->
  trace (endCB k (Some e) s) = trace s ++ [Invoke (end_cb ctx) (ArgErr e)]
  /\ exists ctx', ending (endCB k (Some e) s) !! k = Some ctx'
                  /\ calledBack ctx' = true.
Proof.
  intros Hk Hc. unfold endCB. rewrite Hk, Hc. simpl. split; [done|].
  eexists. split;
    [apply list_lookup_insert_eq; by eapply lookup_lt_Some | reflexivity].
Qed.

Lemma endCB_last k s ctx :
  ending s !! k = Some ctx -> calledBack ctx = false ->
  length (_allConnections s) <= S (closedConnections ctx) ->
  trace (endCB k None s) = trace s ++ [Invoke (end_cb ctx) ArgNone]
  /\ exists ctx', ending (endCB k None s) !! k = Some ctx'
                  /\ calledBack ctx' = true.
Proof.
  intros Hk Hc Hn. unfold endCB. rewrite Hk, Hc.
  replace (length (_allConnections s) <=? S (closedConnections ctx)) with true
    by (symmetry; by apply Nat.leb_le).
  simpl. split; [done|]. eexists. split;
    [apply list_lookup_insert_eq; by eapply lookup_lt_Some | reflexivity].
Qed.

Lemma endCB_more k s ctx :
  ending s !! k = Some ctx -> calledBack ctx = false ->
  S (closedConnections ctx) < length (_allConnections s) ->
  trace (endCB k None s) = trace s
  /\ _allConnections (endCB k None s) = _allConnections s
  /\ ending (endCB k None s) !! k
     = Some {| end_cb := end_cb ctx; calledBack := false;
               closedConnections := S (closedConnections ctx) |}.
Proof.
  intros Hk Hc Hn. unfold endCB. rewrite Hk, Hc.
  replace (length (_allConnections s) <=? S (closedConnections ctx)) with false
    by (symmetry; apply Nat.leb_gt; lia).
  simpl. split; [done|]. split; [done|].
  apply list_lookup_insert_eq. by eapply lookup_lt_Some.
Qed.

(** Successes short of the number of connections only count. *)
Lemma reports_successes k n s cb m :
  ending s !! k = Some {| end_cb := cb; calledBack := false; closedConnections := m |} ->
  m + n < length (_allConnections s) ->
  trace (reports k (replicate n None) s) = trace s
  /\ _allConnections (reports k (replicate n None) s) = _allConnections s
  /\ ending (reports k (replicate n None) s) !! k
     = Some {| end_cb := cb; calledBack := false; closedConnections := m + n |}.
Proof.
  revert s m. induction n as [|n IH]; intros s m Hk Hn.
  - simpl. by rewrite Nat.add_0_r.
  - simpl. destruct (endCB_more k s _ Hk eq_refl) as (Ht & Ha & He).
    { simpl. lia. }
    simpl in He. destruct (IH (endCB k None s) (S m) He) as (Ht' & Ha' & He').
    { rewrite Ha. lia. }
    fold (reports k (replicate n None) (endCB k None s)).
    rewrite Ht', Ha', He', Ht, Ha. by rewrite Nat.add_succ_r.
Qed.

Lemma end_loop_flags k conns s :
  _closed (end_loop k conns s) = _closed s
  /\ _expiredTimer (end_loop k conns s) = _expiredTimer s.
Proof.
  revert s. induction conns as [|c conns IH]; intros s; simpl; [done|].
  by destruct (IH (_realEnd k c s)) as (-> & ->).
Qed.

(** The state [end] leaves when there are connections to end. *)
Lemma Pool_end_asks cb s :
  _allConnections s <> [] ->
  let s' := Pool_end cb s in
  _closed s' = true
  /\ _expiredTimer s' = false
  /\ _allConnections s' = _allConnections s
  /\ trace s' = trace s ++ map (fun c => RealEndReq c (length (ending s)))
                              (_allConnections s)
  /\ ending s' !! length (ending s)
     = Some {| end_cb := default ThrowIfError cb; calledBack := false;
               closedConnections := 0 |}.
Proof.
  intros Hne. unfold Pool_end. rewrite _stopExpiredTimer_eq. simpl.
  destruct (_allConnections s) as [|c l] eqn:Ha; [done|]. simpl length.
  change (S (length l) =? 0) with false. cbv iota.
  match goal with |- context [end_loop ?k ?q ?x] =>
    destruct (end_loop_frame k q x) as (_ & H1 & H2 & H3);
    destruct (end_loop_flags k q x) as (H4 & H5);
    set (r := end_loop k q x) in * end.
  simpl in *. rewrite H1, H2, H3, H4, H5, Ha.
  repeat split; try done.
  by rewrite list_lookup_middle.
Qed.

(** The state [end] leaves when there is no connection. *)
Lemma Pool_end_none cb s :
  _allConnections s = [] ->
  let s' := Pool_end cb s in
  _closed s' = true
  /\ trace s' = trace s ++ [Invoke (default ThrowIfError cb) ArgNone]
  /\ exists ctx, ending s' !! length (ending s) = Some ctx
                 /\ calledBack ctx = true.
Proof.
  intros Ha. unfold Pool_end. rewrite _stopExpiredTimer_eq. simpl.
  rewrite Ha. simpl.
  match goal with |- context [endCB ?k None ?x] =>
    destruct (endCB_last k x
                {| end_cb := default ThrowIfError cb; calledBack := false;
                   closedConnections := 0 |}) as (Ht & ctx & Hk & Hc);
    [ simpl; by rewrite list_lookup_middle | done | simpl; rewrite Ha; simpl; lia | ];
    destruct (endCB_frame k None x) as (_ & _ & _ & _ & _ & Hcl & _);
    set (r := endCB k None x) in * end.
  simpl in *. rewrite Hcl, Ht. split; [done|]. split; [done|]. eauto.
Qed.

(** C7: [end] closes the pool and calls its continuation once.  Without
    connections it calls it at once, with no error, and no later report
    changes anything.  Otherwise it asks every connection of
    [_allConnections] to end and calls nothing yet; as the reports come in
    (the connections staying registered), fewer successes than there are
    connections call nothing, the first report with an error before that
    calls the continuation with this error, the success that completes the
    number calls it with no error, and whatever is reported after the call
    is dropped. *)
Theorem C7_end_completion (cb : option Callback) (s : Pool) :
  let k := length (ending s) in
  let completion := default ThrowIfError cb in
  _closed (Pool_end cb s) = true
  /\ (_allConnections s = [] ->
      trace (Pool_end cb s) = trace s ++ [Invoke completion ArgNone]
      /\ forall rs, reports k rs (Pool_end cb s) = Pool_end cb s)
  /\ (_allConnections s <> [] ->
      trace (Pool_end cb s)
      = trace s ++ map (fun c => RealEndReq c k) (_allConnections s)
      /\ (forall n, n < length (_allConnections s) ->
            trace (reports k (replicate n None) (Pool_end cb s))
            = trace (Pool_end cb s))
      /\ (forall n e rest, n < length (_allConnections s) ->
            trace (reports k (replicate n None ++ Some e :: rest) (Pool_end cb s))
            = trace (Pool_end cb s) ++ [Invoke completion (ArgErr e)])
      /\ (forall rest,
            trace (reports k (replicate (length (_allConnections s)) None ++ rest)
                     (Pool_end cb s))
            = trace (Pool_end cb s) ++ [Invoke completion ArgNone])).
Proof.
  intros k completion. split; [|split].
  - destruct (_allConnections s) as [|c l] eqn:Ha.
    + by destruct (Pool_end_none cb s Ha) as (H & _).
    + by destruct (Pool_end_asks cb s) as (H & _); [by rewrite Ha|].
  - intros Ha. destruct (Pool_end_none cb s Ha) as (_ & Ht & ctx & Hk & Hc).
    split; [done|]. intros rs. by eapply reports_called.
  - intros Hne. destruct (Pool_end_asks cb s Hne) as (_ & _ & Ha & Ht & Hk).
    fold k completion in Ht, Hk. split; [done|].
    assert (S1 : forall n, n < length (_allConnections s) ->
      trace (reports k (replicate n None) (Pool_end cb s)) = trace (Pool_end cb s)
      /\ _allConnections (reports k (replicate n None) (Pool_end cb s))
         = _allConnections s
      /\ ending (reports k (replicate n None) (Pool_end cb s)) !! k
         = Some {| end_cb := completion; calledBack := false;
                   closedConnections := n |}).
    { intros n Hn.
      destruct (reports_successes k n (Pool_end cb s) completion 0 Hk)
        as (H1 & H2 & H3); [rewrite Ha; simpl; lia|].
      by rewrite H1, H2, H3, Ha. }
    split; [|split].
    + intros n Hn. by destruct (S1 n Hn) as (H & _).
    + intros n e rest Hn. destruct (S1 n Hn) as (H1 & H2 & H3).
      rewrite reports_app. simpl.
      destruct (endCB_error k e _ _ H3 eq_refl) as (H4 & ctx & H5 & H6).
      fold (reports k rest (endCB k (Some e)
              (reports k (replicate n None) (Pool_end cb s)))).
      rewrite (reports_called k rest _ ctx H5 H6). by rewrite H4, H1.
    + intros rest.
      destruct (length (_allConnections s)) as [|n] eqn:Hl.
      { destruct (_allConnections s); [done|discriminate]. }
      destruct (S1 n) as (H1 & H2 & H3); [lia|].
      replace (replicate (S n) (@None Error))
        with (replicate n (@None Error) ++ [None])
        by (by rewrite <- replicate_S_end).
      rewrite <- app_assoc, reports_app. simpl.
      destruct (endCB_last k _ _ H3 eq_refl) as (H4 & ctx & H5 & H6).
      { rewrite H2, Hl. simpl. lia. }
      fold (reports k rest (endCB k None
              (reports k (replicate n None) (Pool_end cb s)))).
      rewrite (reports_called k rest _ ctx H5 H6). by rewrite H4, H1.
Qed.

(** ** Release does not look at the closed flag *)

Lemma releaseConnection_set_closed now c b s :
  releaseConnection now c (set_closed b s)
  = set_closed b (releaseConnection now c s).
Proof.
  unfold releaseConnection, conn_pool, Denque.shift. simpl.
  destruct (negb match heap s !! c with Some o => _pool o | None => false end);
    destruct (_connectionQueue s); simpl; try reflexivity.
  by destruct (minConnections (config s) <=? length (_freeConnections s)).
Qed.

(** C10: [releaseConnection] is a total function of the state that never
    reads [_closed]: whatever the flag is set to, the release does the same
    and keeps the flag.  So in a closed pool a connection whose
    back-reference is set is deferred to the oldest waiter, or appended to
    [_extraConnections] or [_freeConnections]; nothing is called, destroyed
    or refused.  [getConnection] does read the flag: on a closed pool it
    only defers the call with the error. *)
Theorem C10_release_ignores_closed (now : Z) (c : ConnId) (s : Pool) :
  (forall b, releaseConnection now c (set_closed b s)
             = set_closed b (releaseConnection now c s))
  /\ (_closed s = true -> conn_pool s c = true ->
      _closed (releaseConnection now c s) = true
      /\ trace (releaseConnection now c s) = trace s
      /\ (forall cb q, _connectionQueue s = cb :: q ->
            nextTick (releaseConnection now c s)
            = nextTick s ++ [TkInvoke cb (ArgConn c)])
      /\ (_connectionQueue s = [] ->
          minConnections (config s) <= length (_freeConnections s) ->
            _extraConnections (releaseConnection now c s)
            = _extraConnections s ++ [c])
      /\ (_connectionQueue s = [] ->
          length (_freeConnections s) < minConnections (config s) ->
            _freeConnections (releaseConnection now c s)
            = _freeConnections s ++ [c]))
  /\ (_closed s = true -> forall cb,
      getConnection cb s = defer (TkInvoke cb (ArgErr PoolClosed)) s).
Proof.
  split; [|split].
  - intros b. apply releaseConnection_set_closed.
  - intros Hc Hp. unfold releaseConnection. rewrite Hp. simpl.
    split; [|split; [|split; [|split]]].
    + destruct (_connectionQueue s); simpl; [|done].
      by destruct (minConnections (config s) <=? length (_freeConnections s)).
    + destruct (_connectionQueue s); simpl; [|done].
      by destruct (minConnections (config s) <=? length (_freeConnections s)).
    + intros cb q Hq. by rewrite Hq.
    + intros Hq Hmin. rewrite Hq. simpl.
      by replace (minConnections (config s) <=? length (_freeConnections s))
        with true by (symmetry; by apply Nat.leb_le).
    + intros Hq Hmin. rewrite Hq. simpl.
      by replace (minConnections (config s) <=? length (_freeConnections s))
        with false by (symmetry; apply Nat.leb_gt; lia).
  - intros Hc cb. unfold getConnection. by rewrite Hc.
Qed.

(** ** Removal *)

(** A scan that does not meet the connection only turns the queue. *)
Lemma splice_loop_absent c (l1 l2 : list ConnId) :
  c ∉ l1 -> splice_loop (length l1) (l1 ++ l2) c = l2 ++ l1.
Proof.
  revert l2. induction l1 as [|x l1 IH]; intros l2 Hc; simpl.
  - by rewrite app_nil_r.
  - apply not_elem_of_cons in Hc as [Hx Hc].
    replace (x =? c) with false by (symmetry; apply Nat.eqb_neq; congruence).
    unfold Denque.push. rewrite <- app_assoc. rewrite IH by done.
    by rewrite <- app_assoc.
Qed.

(** Removing a connection that is not in the queue moves the last element
    to the front. *)
Lemma spliceConnection_absent c (l : list ConnId) (x : ConnId) :
  c ∉ l ++ [x] -> spliceConnection (l ++ [x]) c = x :: l.
Proof.
  intros Hc. apply not_elem_of_app in Hc as [Hl Hx].
  apply not_elem_of_cons in Hx as [Hx _].
  unfold spliceConnection, Denque.get. rewrite length_app. simpl.
  replace (length l + 1 - 1) with (length l) by lia.
  replace (length l + 1 =? 0) with false by (symmetry; apply Nat.eqb_neq; lia).
  rewrite list_lookup_middle by done.
  replace (x =? c) with false by (symmetry; apply Nat.eqb_neq; congruence).
  by rewrite splice_loop_absent.
Qed.

Lemma spliceConnection_absent_perm c (q : list ConnId) :
  c ∉ q -> spliceConnection q c ≡ₚ q.
Proof.
  destruct q as [|x l _] using rev_ind; [done|]. intros Hc.
  rewrite spliceConnection_absent by done.
  by rewrite Permutation_app_comm.
Qed.

(** What [_removeConnection] leaves in the three queues. *)
Lemma _removeConnection_buckets now c s :
  _allConnections (_removeConnection now c s) = spliceConnection (_allConnections s) c
  /\ _freeConnections (_removeConnection now c s)
     = (if conn_pool s c then
          match _connectionQueue s with
          | [] => if minConnections (config s)
                     <=? length (spliceConnection (_freeConnections s) c)
                  then spliceConnection (_freeConnections s) c
                  else spliceConnection (_freeConnections s) c ++ [c]
          | _ => spliceConnection (_freeConnections s) c
          end
        else spliceConnection (_freeConnections s) c)
  /\ _extraConnections (_removeConnection now c s)
     = (if conn_pool s c then
          match _connectionQueue s with
          | [] => if minConnections (config s)
                     <=? length (spliceConnection (_freeConnections s) c)
                  then spliceConnection (_extraConnections s) c ++ [c]
                  else spliceConnection (_extraConnections s) c
          | _ => spliceConnection (_extraConnections s) c
          end
        else spliceConnection (_extraConnections s) c).
Proof.
  unfold _removeConnection, releaseConnection, conn_pool, Denque.shift.
  simpl. rewrite !_stopExpiredTimer_eq.
  destruct (heap s !! c) as [[[] ?]|]; simpl;
    destruct (_connectionQueue s); simpl;
    repeat match goal with
      | |- context [if ?b then _ else _] => destruct b eqn:?; simpl
      end; done.
Qed.

(** What [_removeConnection] does for the waiters when the back-reference of
    the connection is cleared. *)
Lemma _removeConnection_waiters now c s :
  conn_pool s c = false ->
  heap (_removeConnection now c s) = heap s
  /\ trace (_removeConnection now c s) = trace s
  /\ (forall cb q, _connectionQueue s = cb :: q ->
        _connectionQueue (_removeConnection now c s) = q
        /\ nextTick (_removeConnection now c s) = nextTick s ++ [TkGetConnection cb])
  /\ (_connectionQueue s = [] ->
        _connectionQueue (_removeConnection now c s) = []
        /\ nextTick (_removeConnection now c s) = nextTick s).
Proof.
  intros Hp. unfold _removeConnection, releaseConnection, Denque.shift.
  rewrite !_stopExpiredTimer_eq.
  change (conn_pool _ c) with (conn_pool s c). rewrite Hp. simpl.
  destruct (_connectionQueue s) as [|cb q] eqn:Hq; simpl;
    destruct (length (spliceConnection (_allConnections s) c) =? 0); simpl;
    (split; [done|]); (split; [done|]);
    (split; [intros cb' q' [=]; by subst | intros [=]; by rewrite ?Hq]).
Qed.

Ltac absent :=
  repeat (apply not_elem_of_cons; split; [discriminate|]); apply not_elem_of_nil.





(** C8, as stated, fails: removing connection 2 once more, which is in none
    of the queues, turns [_allConnections] and [_freeConnections] round; and
    removing a connection that is in none of the queues but has its
    back-reference set appends it to an idle queue. *)
Lemma C8_counterexample :
  ((2 ∉ _allConnections removal_pool)
   /\ (2 ∉ _freeConnections removal_pool)
   /\ (2 ∉ _extraConnections removal_pool)
   /\ _freeConnections removal_pool = [1; 0]
   /\ _freeConnections (_removeConnection 4000 2 removal_pool) = [0; 1]
   /\ _freeConnections (_removeConnection 4000 2 removal_pool)
      <> _freeConnections removal_pool)
  /\ ((0 ∉ _allConnections relinked_pool)
      /\ (0 ∉ _freeConnections relinked_pool)
      /\ (0 ∉ _extraConnections relinked_pool)
      /\ _freeConnections relinked_pool = []
      /\ _freeConnections (_removeConnection 4000 0 relinked_pool) = [0]
      /\ _freeConnections (_removeConnection 4000 0 relinked_pool)
         <> _freeConnections relinked_pool).
Proof.
  vm_compute.
  repeat match goal with |- _ /\ _ => split end;
    try reflexivity; try discriminate; absent.
Qed.

(** C8 (amended): for a connection that is in none of the three queues and
    whose back-reference is cleared, [_removeConnection] leaves each queue
    with the elements it had, leaves the connections themselves alone and
    calls nothing; and it still serves the waiters: the oldest one leaves the
    queue and a [getConnection] for it is deferred, which the scheduler runs
    as a new acquisition. *)
Theorem C8_removeConnection_absent (now : Z) (c : ConnId) (s : Pool) :
  (c ∉ _allConnections s) -> (c ∉ _freeConnections s) ->
  (c ∉ _extraConnections s) -> conn_pool s c = false ->
  _allConnections (_removeConnection now c s) ≡ₚ _allConnections s
  /\ _freeConnections (_removeConnection now c s) ≡ₚ _freeConnections s
  /\ _extraConnections (_removeConnection now c s) ≡ₚ _extraConnections s
  /\ heap (_removeConnection now c s) = heap s
  /\ trace (_removeConnection now c s) = trace s
  /\ (forall cb q, _connectionQueue s = cb :: q ->
        _connectionQueue (_removeConnection now c s) = q
        /\ nextTick (_removeConnection now c s) = nextTick s ++ [TkGetConnection cb])
  /\ (_connectionQueue s = [] ->
        _connectionQueue (_removeConnection now c s) = []
        /\ nextTick (_removeConnection now c s) = nextTick s)
  /\ (forall cb ts s1, nextTick s1 = TkGetConnection cb :: ts ->
        run_tick s1 = getConnection cb (set_ticks ts s1)).
Proof.
  intros Ha Hf He Hp.
  destruct (_removeConnection_buckets now c s) as (E1 & E2 & E3).
  rewrite Hp in E2, E3. rewrite E1, E2, E3.
  destruct (_removeConnection_waiters now c s Hp) as (H1 & H2 & H3 & H4).
  split; [by apply spliceConnection_absent_perm|].
  split; [by apply spliceConnection_absent_perm|].
  split; [by apply spliceConnection_absent_perm|].
  split; [done|]. split; [done|]. split; [exact H3|]. split; [exact H4|].
  intros cb ts s1 H. by apply run_tick_getConnection.
Qed.

(** ** The order of the extra queue *)



Lemma ascending_app_r l1 l2 : ascending (l1 ++ l2) = true -> ascending l2 = true.
Proof.
  induction l1 as [|a l1 IH]; [done|]. simpl.
  destruct (l1 ++ l2) as [|b l] eqn:E.
  - destruct l1; [|done]. simpl in E. by subst.
  - intros [_ H]%andb_true_iff. by apply IH.
Qed.

Lemma ascending_app_l l1 l2 : ascending (l1 ++ l2) = true -> ascending l1 = true.
Proof.
  induction l1 as [|a l1 IH]; [done|]. simpl.
  destruct l1 as [|b l1]; [done|]. simpl.
  intros [H1 H2]%andb_true_iff. rewrite H1. simpl. by apply IH.
Qed.

(** Taking an idle connection keeps the order: the extra queue loses its
    last element at most. *)
Lemma getConnection_sorted cb s :
  extra_sorted s = true -> extra_sorted (getConnection cb s) = true.
Proof.
  intros H. destruct (_closed s) eqn:Hc.
  { unfold getConnection. by rewrite Hc. }
  destruct (_freeConnections s) as [|c q] eqn:Hf.
  2:{ by rewrite (getConnection_free cb c q). }
  destruct (_extraConnections s) as [|c q _] eqn:He using rev_ind.
  2:{ rewrite (getConnection_extra cb c q) by done.
      unfold extra_sorted, conn_lastReleased in *. simpl.
      rewrite He, map_app in H. by apply ascending_app_l in H. }
  rewrite getConnection_no_idle by done.
  unfold extra_sorted, new_PoolConnection, _startExpiredTimer.
  break_match; simpl; by rewrite ?He.
Qed.

Lemma ascending_snoc l x :
  ascending l = true -> Forall (fun a => stamp_le a x = true) l ->
  ascending (l ++ [x]) = true.
Proof.
  induction l as [|a l IH]; [done|]. intros Ha Hl.
  apply Forall_cons in Hl as [Hax Hl].
  destruct l as [|b l]; simpl in *.
  - by rewrite Hax.
  - apply andb_true_iff in Ha as [-> Ha]. simpl. by apply IH.
Qed.

(** A release keeps the order when the connection is not in the extra queue
    already and the clock has not gone back behind the stamps there. *)
Lemma releaseConnection_sorted now c s :
  extra_sorted s = true ->
  (c ∉ _extraConnections s) ->
  Forall (fun c' => stamp_le (conn_lastReleased s c') (Some now) = true)
         (_extraConnections s) ->
  extra_sorted (releaseConnection now c s) = true.
Proof.
  intros Hs Hc Hnow. unfold releaseConnection.
  destruct (conn_pool s c) eqn:Hp; simpl.
  2:{ by destruct (_connectionQueue s). }
  destruct (_connectionQueue s); simpl; [|done].
  destruct (minConnections (config s) <=? length (_freeConnections s)); [|done].
  unfold extra_sorted, Denque.push in *. simpl. rewrite map_app. simpl.
  set (s' := set_extra _ _).
  assert (E : map (conn_lastReleased s') (_extraConnections s)
              = map (conn_lastReleased s) (_extraConnections s)).
  { apply map_ext_in. intros c' Hin. unfold conn_lastReleased. simpl.
    rewrite lookup_alter_ne; [done|]. intros ->.
    by apply Hc, list_elem_of_In. }
  assert (F : conn_lastReleased s' c = Some now).
  { unfold conn_lastReleased, conn_pool in *. simpl. rewrite lookup_alter_eq.
    by destruct (heap s !! c). }
  rewrite E, F. apply ascending_snoc; [done|].
  by apply Forall_map.
Qed.



(** C5 (what the code does): in a pool whose extra queue holds connection 0,
    released at 1000, before connection 1, released at 2000, removing
    connection 2, which is in use and not in the queue, leaves the queue as
    1, 0: no longer in ascending order.  The sweep at 16500 then stops at
    connection 1 and leaves connection 0, idle for more than 15 seconds,
    where it is; on the queue in order, it evicts connection 0. *)
Theorem C5_removeConnection_breaks_order :
  reachable order_config order_pool
  /\ _extraConnections order_pool = [0; 1]
  /\ map (conn_lastReleased order_pool) [0; 1] = [Some 1000%Z; Some 2000%Z]
  /\ extra_sorted order_pool = true
  /\ _extraConnections (_removeConnection 3000 2 order_pool) = [1; 0]
  /\ extra_sorted (_removeConnection 3000 2 order_pool) = false
  /\ _extraConnections
       (_closeIdleConnections 16500 (_removeConnection 3000 2 order_pool))
     = [1; 0]
  /\ _extraConnections (_closeIdleConnections 16500 order_pool) = [1].
Proof.
  split; [by eexists|]. vm_compute. by repeat split.
Qed.

(** ** The configuration *)

(** C9: [PoolConfig] accepts its argument exactly when its collaborators
    do: it fails when a connection string does not parse or the connection
    configuration is not built, and for no other reason.  Whenever the
    options are read and the connection configuration [cc] is built from
    them, the construction yields [cc] and a pool configuration with these
    fields: [waitForConnections] as given, [true] by default;
    [connectionLimit] as given, 10 by default; [queueLimit] as given, 0 by
    default; [minConnections] the smaller of [connectionLimit] and what is
    given, [connectionLimit] by default, so never above [connectionLimit];
    [idleTimeout] the larger of 15 and what is given, 300 by default, so
    never below 15.  And every configuration it yields is of this kind. *)
Theorem C9_PoolConfig_defaults
  (ConnectionConfig : Type)
  (parseUrl : String.string -> option Options)
  (ConnectionConfig_new : Options -> option ConnectionConfig)
  (options : String.string + Options) :
  (parse_options parseUrl options = None ->
     PoolConfig_new ConnectionConfig parseUrl ConnectionConfig_new options = None)
  /\ (forall o, parse_options parseUrl options = Some o ->
        (ConnectionConfig_new o = None ->
           PoolConfig_new ConnectionConfig parseUrl ConnectionConfig_new options
           = None)
        /\ (forall cc, ConnectionConfig_new o = Some cc ->
             exists cfg,
               PoolConfig_new ConnectionConfig parseUrl ConnectionConfig_new options
               = Some (cc, cfg)
               /\ waitForConnections cfg = default true (opt_waitForConnections o)
               /\ connectionLimit cfg = default 10 (opt_connectionLimit o)
               /\ queueLimit cfg = default 0 (opt_queueLimit o)
               /\ minConnections cfg
                  = Nat.min (connectionLimit cfg)
                      (default (connectionLimit cfg) (opt_minConnections o))
               /\ minConnections cfg <= connectionLimit cfg
               /\ idleTimeout cfg = Z.max 15 (default 300%Z (opt_idleTimeout o))
               /\ (15 <= idleTimeout cfg)%Z))
  /\ (forall cc cfg,
        PoolConfig_new ConnectionConfig parseUrl ConnectionConfig_new options
        = Some (cc, cfg) ->
        exists o,
          parse_options parseUrl options = Some o
          /\ ConnectionConfig_new o = Some cc
          /\ waitForConnections cfg = default true (opt_waitForConnections o)
          /\ connectionLimit cfg = default 10 (opt_connectionLimit o)
          /\ queueLimit cfg = default 0 (opt_queueLimit o)
          /\ minConnections cfg
             = Nat.min (connectionLimit cfg)
                 (default (connectionLimit cfg) (opt_minConnections o))
          /\ minConnections cfg <= connectionLimit cfg
          /\ idleTimeout cfg = Z.max 15 (default 300%Z (opt_idleTimeout o))
          /\ (15 <= idleTimeout cfg)%Z).
Proof.
  assert (F : forall o cc,
    parse_options parseUrl options = Some o -> ConnectionConfig_new o = Some cc ->
    exists cfg,
      PoolConfig_new ConnectionConfig parseUrl ConnectionConfig_new options
      = Some (cc, cfg)
      /\ waitForConnections cfg = default true (opt_waitForConnections o)
      /\ connectionLimit cfg = default 10 (opt_connectionLimit o)
      /\ queueLimit cfg = default 0 (opt_queueLimit o)
      /\ minConnections cfg
         = Nat.min (connectionLimit cfg)
             (default (connectionLimit cfg) (opt_minConnections o))
      /\ minConnections cfg <= connectionLimit cfg
      /\ idleTimeout cfg = Z.max 15 (default 300%Z (opt_idleTimeout o))
      /\ (15 <= idleTimeout cfg)%Z).
  { intros o cc Hparse Hcc. unfold PoolConfig_new. rewrite Hparse. simpl.
    rewrite Hcc. simpl. eexists. split; [reflexivity|].
    cbn [waitForConnections connectionLimit queueLimit minConnections idleTimeout].
    destruct (opt_waitForConnections o), (opt_connectionLimit o),
      (opt_queueLimit o), (opt_minConnections o), (opt_idleTimeout o);
      cbn [default];
      repeat match goal with |- _ /\ _ => split end; try reflexivity; lia. }
  split; [|split].
  - intros Hparse. unfold PoolConfig_new. by rewrite Hparse.
  - intros o Hparse. split.
    + intros Hcc. unfold PoolConfig_new. rewrite Hparse. simpl. by rewrite Hcc.
    + intros cc Hcc. by apply F.
  - intros cc cfg H.
    destruct (parse_options parseUrl options) as [o|] eqn:Hparse.
    2:{ unfold PoolConfig_new in H. by rewrite Hparse in H. }
    destruct (ConnectionConfig_new o) as [cc0|] eqn:Hcc.
    2:{ unfold PoolConfig_new in H. rewrite Hparse in H. simpl in H.
        by rewrite Hcc in H. }
    destruct (F o cc0 eq_refl Hcc) as (cfg0 & E & Hfields).
    rewrite E in H. injection H as <- <-.
    exists o. by repeat (split; [done|]).
Qed.

(** * The theorems at work on the sample pools *)

(** Two connections at most, one waiter at most: the first two callers get
    new connections, the third waits, the fourth is refused at once; the
    release of connection 0 hands it to the waiter, and connection 1,
    released next, goes to the free queue. *)
Example scenario_queue_limit :
  let s := run [OpGetConnection (Cb 3); OpRelease 100 0; OpTick; OpRelease 200 1]
               full_pool in
  calls (Cb 0) (trace s) = [ArgConn 0]
  /\ calls (Cb 1) (trace s) = [ArgConn 1]
  /\ calls (Cb 2) (trace s) = [ArgConn 0]
  /\ calls (Cb 3) (trace s) = [ArgErr QueueLimitReached]
  /\ _allConnections s = [0; 1]
  /\ _freeConnections s = [1]
  /\ _extraConnections s = []
  /\ _connectionQueue s = [].
Proof. vm_compute. by repeat split. Qed.

Lemma C1_witness :
  _closed removal_pool = false
  /\ _freeConnections removal_pool = [1; 0]
  /\ getConnection (Cb 9) removal_pool
     = defer (TkInvoke (Cb 9) (ArgConn 1)) (set_free [0] removal_pool).
Proof.
  assert (Hc : _closed removal_pool = false) by (vm_compute; reflexivity).
  assert (Hf : _freeConnections removal_pool = [1; 0]) by (vm_compute; reflexivity).
  split; [exact Hc|]. split; [exact Hf|].
  exact (proj1 (proj1 (C1_getConnection_idle (Cb 9) removal_pool Hc) 1 [0] Hf)).
Defined.

Lemma C2_witness :
  (_closed full_pool = false
   /\ _freeConnections full_pool = [] /\ _extraConnections full_pool = []
   /\ at_capacity full_pool
   /\ waitForConnections (config full_pool) = true
   /\ 0 < queueLimit (config full_pool)
   /\ queueLimit (config full_pool) <= length (_connectionQueue full_pool))
  /\ getConnection (Cb 3) full_pool
     = invoke (Cb 3) (ArgErr QueueLimitReached) full_pool.
Proof.
  assert (Hc : _closed full_pool = false) by (vm_compute; reflexivity).
  assert (Hf : _freeConnections full_pool = []) by (vm_compute; reflexivity).
  assert (He : _extraConnections full_pool = []) by (vm_compute; reflexivity).
  assert (Hcap : at_capacity full_pool) by (vm_compute; split; [discriminate|lia]).
  assert (Hw : waitForConnections (config full_pool) = true)
    by (vm_compute; reflexivity).
  assert (Hq : 0 < queueLimit (config full_pool)) by (vm_compute; lia).
  assert (Hl : queueLimit (config full_pool) <= length (_connectionQueue full_pool))
    by (vm_compute; lia).
  split; [by repeat split|].
  exact (proj1 (proj1 (proj2 (proj2 (C2_getConnection_failures (Cb 3) full_pool)))
                  Hc Hf He Hcap Hw Hq Hl)).
Defined.

Lemma C3_witness :
  conn_pool full_pool 0 = true
  /\ _connectionQueue full_pool = [Cb 2]
  /\ releaseConnection 5000 0 full_pool
     = defer (TkInvoke (Cb 2) (ArgConn 0)) (set_queue [] full_pool).
Proof.
  assert (Hp : conn_pool full_pool 0 = true) by (vm_compute; reflexivity).
  assert (Hq : _connectionQueue full_pool = [Cb 2]) by (vm_compute; reflexivity).
  split; [exact Hp|]. split; [exact Hq|].
  exact (proj1 (proj1 (C3_releaseConnection 5000 0 full_pool Hp) (Cb 2) [] Hq)).
Defined.

Lemma C4_witness :
  connectionLimit scenario_config <> 0
  /\ reachable scenario_config full_pool
  /\ length (_allConnections full_pool) <= connectionLimit scenario_config.
Proof.
  assert (H0 : connectionLimit scenario_config <> 0) by discriminate.
  assert (Hr : reachable scenario_config full_pool) by (by eexists).
  split; [exact H0|]. split; [exact Hr|].
  exact (proj1 C4_connectionLimit_bound scenario_config full_pool H0 Hr).
Defined.

Lemma C7_witness :
  _allConnections full_pool <> []
  /\ 1 < length (_allConnections full_pool)
  /\ trace (reports (length (ending full_pool))
              (replicate 1 None ++ Some (External 7) :: [None])
              (Pool_end (Some (Cb 9)) full_pool))
     = trace (Pool_end (Some (Cb 9)) full_pool)
       ++ [Invoke (default ThrowIfError (Some (Cb 9))) (ArgErr (External 7))].
Proof.
  assert (Hne : _allConnections full_pool <> []) by (vm_compute; discriminate).
  assert (Hl : 1 < length (_allConnections full_pool)) by (vm_compute; lia).
  split; [exact Hne|]. split; [exact Hl|].
  exact (proj1 (proj2 (proj2 (proj2 (proj2 (C7_end_completion (Some (Cb 9)) full_pool))
                                 Hne)))
           1 (External 7) [None] Hl).
Defined.

Lemma C8_witness :
  ((2 ∉ _allConnections removal_pool)
   /\ (2 ∉ _freeConnections removal_pool)
   /\ (2 ∉ _extraConnections removal_pool)
   /\ conn_pool removal_pool 2 = false)
  /\ _freeConnections (_removeConnection 4000 2 removal_pool)
     ≡ₚ _freeConnections removal_pool.
Proof.
  assert (Ha : 2 ∉ _allConnections removal_pool) by (vm_compute; absent).
  assert (Hf : 2 ∉ _freeConnections removal_pool) by (vm_compute; absent).
  assert (He : 2 ∉ _extraConnections removal_pool) by (vm_compute; absent).
  assert (Hp : conn_pool removal_pool 2 = false) by (vm_compute; reflexivity).
  split; [by repeat split|].
  exact (proj1 (proj2 (C8_removeConnection_absent 4000 2 removal_pool Ha Hf He Hp))).
Defined.

Lemma C9_witness :
  (parse_options (fun _ => None) (inr sample_options) = Some sample_options
   /\ (fun _ : Options => Some tt) sample_options = Some tt)
  /\ exists cfg,
       PoolConfig_new unit (fun _ => None) (fun _ => Some tt) (inr sample_options)
       = Some (tt, cfg)
       /\ minConnections cfg <= connectionLimit cfg
       /\ idleTimeout cfg
          = Z.max 15 (default 300%Z (opt_idleTimeout sample_options)).
Proof.
  assert (H1 : parse_options (fun _ => None) (inr sample_options)
               = Some sample_options) by reflexivity.
  assert (H2 : (fun _ : Options => Some tt) sample_options = Some tt)
    by reflexivity.
  split; [by split|].
  destruct (proj2 (proj1 (proj2 (C9_PoolConfig_defaults unit (fun _ => None)
                                   (fun _ => Some tt) (inr sample_options)))
                     sample_options H1) tt H2)
    as (cfg & E & _ & _ & _ & _ & H5 & H6 & _).
  exists cfg. by repeat split.
Defined.

Lemma C10_witness :
  (_closed ended_pool = true /\ conn_pool ended_pool 0 = true
   /\ _connectionQueue ended_pool = [Cb 2])
  /\ nextTick (releaseConnection 5000 0 ended_pool)
     = nextTick ended_pool ++ [TkInvoke (Cb 2) (ArgConn 0)].
Proof.
  assert (Hc : _closed ended_pool = true) by (vm_compute; reflexivity).
  assert (Hp : conn_pool ended_pool 0 = true) by (vm_compute; reflexivity).
  assert (Hq : _connectionQueue ended_pool = [Cb 2]) by (vm_compute; reflexivity).
  split; [by repeat split|].
  exact (proj1 (proj2 (proj2 (proj1 (proj2 (C10_release_ignores_closed 5000 0 ended_pool))
                                 Hc Hp)))
           (Cb 2) [] Hq).
Defined.

(** * More of the pool *)

(** ** What [spliceConnection] leaves *)

(** A scan that meets the connection after [l1] stops there: what came
    before it has gone to the back. *)
Lemma splice_loop_found c (l1 l2 : list ConnId) (k : nat) :
  c ∉ l1 -> splice_loop (length l1 + S k) (l1 ++ c :: l2) c = l2 ++ l1.
Proof.
  revert l2. induction l1 as [|x l1 IH]; intros l2 Hc; simpl.
  - by rewrite Nat.eqb_refl, app_nil_r.
  - apply not_elem_of_cons in Hc as [Hx Hc].
    replace (x =? c) with false by (symmetry; apply Nat.eqb_neq; congruence).
    unfold Denque.push. rewrite <- app_assoc. simpl. rewrite IH by done.
    by rewrite <- app_assoc.
Qed.

Lemma spliceConnection_tail c (l : list ConnId) :
  spliceConnection (l ++ [c]) c = l.
Proof.
  unfold spliceConnection, Denque.get, Denque.pop. rewrite length_app. simpl.
  replace (length l + 1 - 1) with (length l) by lia.
  replace (length l + 1 =? 0) with false by (symmetry; apply Nat.eqb_neq; lia).
  rewrite list_lookup_middle by done. rewrite Nat.eqb_refl. simpl.
  apply removelast_last.
Qed.

Lemma spliceConnection_inner c y (l1 l2 : list ConnId) :
  c ∉ l1 -> y <> c ->
  spliceConnection (l1 ++ c :: l2 ++ [y]) c = l2 ++ [y] ++ l1.
Proof.
  intros Hc Hy.
  replace (l1 ++ c :: l2 ++ [y]) with ((l1 ++ c :: l2) ++ [y])
    by (by rewrite <- app_assoc).
  unfold spliceConnection, Denque.get. rewrite length_app. simpl.
  replace (length (l1 ++ c :: l2) + 1 - 1) with (length (l1 ++ c :: l2)) by lia.
  replace (length (l1 ++ c :: l2) + 1 =? 0) with false
    by (symmetry; apply Nat.eqb_neq; lia).
  rewrite list_lookup_middle by done.
  replace (y =? c) with false by (symmetry; by apply Nat.eqb_neq).
  rewrite length_app. simpl. rewrite <- app_assoc. simpl.
  rewrite splice_loop_found by done. by rewrite <- app_assoc.
Qed.

(** X1: what [spliceConnection] returns, in each case.  A connection at the
    tail is popped and the rest stays as it is.  Otherwise the first
    occurrence is taken out, and what stood before it is moved behind the
    rest: only a connection at the front, or at the tail, leaves the others
    in their order.  A connection that is not there costs a queue of two or
    more its order as well: the last element comes first. *)
Theorem X1_spliceConnection_result (c : ConnId) :
  (forall l, spliceConnection (l ++ [c]) c = l)
  /\ (forall l1 l2 y, (c ∉ l1) -> y <> c ->
        spliceConnection (l1 ++ c :: l2 ++ [y]) c = l2 ++ [y] ++ l1)
  /\ (forall l2 y, y <> c -> spliceConnection (c :: l2 ++ [y]) c = l2 ++ [y])
  /\ (forall l x, (c ∉ l ++ [x]) -> spliceConnection (l ++ [x]) c = x :: l)
  /\ spliceConnection [] c = [].
Proof.
  split; [apply spliceConnection_tail|].
  split; [intros l1 l2 y; apply spliceConnection_inner|].
  split.
  { intros l2 y Hy.
    pose proof (spliceConnection_inner c y [] l2) as H. simpl in H.
    rewrite H; [by rewrite ?app_nil_r, <- ?app_assoc, ?app_nil_r
               | apply not_elem_of_nil | done]. }
  split; [intros l x; apply spliceConnection_absent | reflexivity].
Qed.

(** One occurrence goes, everything else stays. *)
Lemma spliceConnection_present_perm c (q : list ConnId) :
  c ∈ q -> q ≡ₚ c :: spliceConnection q c.
Proof.
  intros Hc. destruct q as [|y l _] using rev_ind; [by apply elem_of_nil in Hc|].
  destruct (decide (y = c)) as [->|Hy].
  { rewrite spliceConnection_tail. by rewrite Permutation_app_comm. }
  apply elem_of_app in Hc as [Hc|Hc].
  2:{ apply list_elem_of_singleton in Hc. congruence. }
  apply list_elem_of_split_l in Hc as (l1 & l2 & -> & Hl1).
  rewrite <- app_assoc. simpl. rewrite spliceConnection_inner by done.
  rewrite (Permutation_app_comm l1). simpl. by rewrite <- app_assoc.
Qed.

(** X2: [spliceConnection] takes one occurrence of a connection that is in
    the queue and no more: the queue was the connection and what is left, in
    some order, and is one shorter now.  A connection that is twice in a
    queue is still there once afterwards. *)
Theorem X2_spliceConnection_removes_one (c : ConnId) (q : list ConnId) :
  (c ∈ q) ->
  q ≡ₚ c :: spliceConnection q c
  /\ S (length (spliceConnection q c)) = length q
  /\ (forall x, x <> c -> (x ∈ spliceConnection q c <-> x ∈ q))
  /\ (NoDup q -> (c ∉ spliceConnection q c) /\ NoDup (spliceConnection q c)).
Proof.
  intros Hc. pose proof (spliceConnection_present_perm c q Hc) as HP.
  split; [done|]. split.
  { apply Permutation_length in HP. simpl in HP. lia. }
  split.
  { intros x Hx.
    assert (E : x ∈ q <-> x ∈ c :: spliceConnection q c) by (by rewrite <- HP).
    rewrite E, elem_of_cons. split; [by right | by intros [?|?]]. }
  intros Hnd. rewrite HP in Hnd. by apply NoDup_cons in Hnd.
Qed.

(** ** The shapes of the results *)

Lemma _startExpiredTimer_eq s : _startExpiredTimer s = set_timer true s.
Proof. destruct s as [? ? ? ? ? ? []]; reflexivity. Qed.

(** The seven ways [getConnection] can go. *)
Lemma getConnection_shape cb s :
  (_closed s = true
   /\ getConnection cb s = defer (TkInvoke cb (ArgErr PoolClosed)) s)
  \/ (_closed s = false /\ exists c q, _freeConnections s = c :: q
      /\ getConnection cb s = defer (TkInvoke cb (ArgConn c)) (set_free q s))
  \/ (_closed s = false /\ _freeConnections s = []
      /\ exists c q, _extraConnections s = q ++ [c]
      /\ getConnection cb s = defer (TkInvoke cb (ArgConn c)) (set_extra q s))
  \/ (_closed s = false /\ _freeConnections s = [] /\ _extraConnections s = []
      /\ (connectionLimit (config s) = 0
          \/ length (_allConnections s) < connectionLimit (config s))
      /\ getConnection cb s
         = connect (next_conn s) cb
             (set_all (_allConnections s ++ [next_conn s])
                (set_timer true
                   (set_heap (<[next_conn s :=
                                  {| _pool := true; _lastReleased := None |}]>
                                (heap s))
                      (S (next_conn s)) s))))
  \/ (_closed s = false /\ _freeConnections s = [] /\ _extraConnections s = []
      /\ at_capacity s /\ waitForConnections (config s) = false
      /\ getConnection cb s
         = defer (TkInvoke cb (ArgErr NoConnectionsAvailable)) s)
  \/ (_closed s = false /\ _freeConnections s = [] /\ _extraConnections s = []
      /\ at_capacity s /\ waitForConnections (config s) = true
      /\ 0 < queueLimit (config s)
      /\ queueLimit (config s) <= length (_connectionQueue s)
      /\ getConnection cb s = invoke cb (ArgErr QueueLimitReached) s)
  \/ (_closed s = false /\ _freeConnections s = [] /\ _extraConnections s = []
      /\ at_capacity s /\ waitForConnections (config s) = true
      /\ (queueLimit (config s) = 0
          \/ length (_connectionQueue s) < queueLimit (config s))
      /\ getConnection cb s
         = set_queue (_connectionQueue s ++ [cb]) (emit EvEnqueue s)).
Proof.
  destruct (_closed s) eqn:Hc.
  { left. split; [done|]. unfold getConnection. by rewrite Hc. }
  right. destruct (_freeConnections s) as [|c q] eqn:Hf.
  2:{ left. split; [done|]. exists c, q. split; [done|].
      by apply getConnection_free. }
  right. destruct (_extraConnections s) as [|c q _] eqn:He using rev_ind.
  2:{ left. split; [done|]. split; [done|]. exists c, q. split; [done|].
      by apply getConnection_extra. }
  right. rewrite getConnection_no_idle by done.
  destruct ((connectionLimit (config s) =? 0)
            || (length (_allConnections s) <? connectionLimit (config s)))
    eqn:Hlim.
  { left. split; [done|]. split; [done|]. split; [done|]. split.
    - apply orb_true_iff in Hlim as [H|H].
      + left. by apply Nat.eqb_eq.
      + right. by apply Nat.ltb_lt.
    - unfold new_PoolConnection. by rewrite _startExpiredTimer_eq. }
  right. apply orb_false_iff in Hlim as [H0 H1].
  apply Nat.eqb_neq in H0. apply Nat.ltb_ge in H1.
  assert (Hcap : at_capacity s) by (split; [done|lia]).
  destruct (waitForConnections (config s)) eqn:Hw; simpl.
  2:{ left. by repeat (split; [done|]). }
  right. destruct (queueLimit (config s) =? 0) eqn:Hq0; simpl.
  { right. apply Nat.eqb_eq in Hq0. repeat (split; [done|]).
    split; [by left|done]. }
  apply Nat.eqb_neq in Hq0.
  destruct (queueLimit (config s) <=? length (_connectionQueue s)) eqn:Hq.
  - left. apply Nat.leb_le in Hq. repeat (split; [done|]).
    split; [lia|]. by split.
  - right. apply Nat.leb_gt in Hq. repeat (split; [done|]).
    split; [by right|done].
Qed.

(** The five ways [releaseConnection] can go. *)
Lemma releaseConnection_shape now c s :
  (conn_pool s c = false /\ exists cb q, _connectionQueue s = cb :: q
   /\ releaseConnection now c s = defer (TkGetConnection cb) (set_queue q s))
  \/ (conn_pool s c = false /\ _connectionQueue s = []
      /\ releaseConnection now c s = s)
  \/ (conn_pool s c = true /\ exists cb q, _connectionQueue s = cb :: q
      /\ releaseConnection now c s
         = defer (TkInvoke cb (ArgConn c)) (set_queue q s))
  \/ (conn_pool s c = true /\ _connectionQueue s = []
      /\ minConnections (config s) <= length (_freeConnections s)
      /\ releaseConnection now c s
         = set_extra (_extraConnections s ++ [c])
             (set_heap (alter (stamp now) c (heap s)) (next_conn s) s))
  \/ (conn_pool s c = true /\ _connectionQueue s = []
      /\ length (_freeConnections s) < minConnections (config s)
      /\ releaseConnection now c s = set_free (_freeConnections s ++ [c]) s).
Proof.
  unfold releaseConnection.
  destruct (conn_pool s c) eqn:Hp; simpl;
    destruct (_connectionQueue s) as [|cb q] eqn:Hq; simpl.
  - right. right. right.
    destruct (minConnections (config s) <=? length (_freeConnections s)) eqn:Hm.
    + left. apply Nat.leb_le in Hm. by repeat (split; [done|]).
    + right. apply Nat.leb_gt in Hm. by repeat (split; [done|]).
  - right. right. left. split; [done|]. by exists cb, q.
  - right. left. by repeat (split; [done|]).
  - left. split; [done|]. by exists cb, q.
Qed.

Lemma endCB_fields k err s : pool_fields (endCB k err s) = pool_fields s.
Proof. unfold endCB. break_match; reflexivity. Qed.

Lemma end_loop_fields k conns s : pool_fields (end_loop k conns s) = pool_fields s.
Proof.
  revert s. induction conns as [|c conns IH]; intros s; simpl; [done|].
  by rewrite IH.
Qed.

Lemma Pool_end_fields cb s :
  pool_fields (Pool_end cb s) = pool_fields (set_timer false (set_closed true s)).
Proof.
  unfold Pool_end. rewrite _stopExpiredTimer_eq.
  destruct (length _ =? 0); [by rewrite endCB_fields|by rewrite end_loop_fields].
Qed.

Lemma connected_fields i err s : pool_fields (connected i err s) = pool_fields s.
Proof. unfold connected. break_match; reflexivity. Qed.


(** ** What every operation keeps *)

(** [pool_inv] does not look at the flag and the timer. *)
Lemma pool_inv_ext s s' :
  config s' = config s -> _allConnections s' = _allConnections s ->
  _freeConnections s' = _freeConnections s ->
  _extraConnections s' = _extraConnections s ->
  _connectionQueue s' = _connectionQueue s ->
  heap s' = heap s -> next_conn s' = next_conn s ->
  pool_inv s -> pool_inv s'.
Proof.
  intros E1 E2 E3 E4 E5 E8 E9.
  unfold pool_inv, waiters_bounded, free_bounded, ids_fresh, extra_stamped,
    conn_lastReleased.
  by rewrite E1, E2, E3, E4, E5, E8, E9.
Qed.

Lemma pool_inv_fields s s' :
  pool_fields s' = pool_fields s -> pool_inv s -> pool_inv s'.
Proof. intros [= E1 E2 E3 E4 E5 E6 E7 E8 E9]. by apply pool_inv_ext. Qed.

Lemma timer_ok_fields s s' :
  pool_fields s' = pool_fields s -> timer_ok s -> timer_ok s'.
Proof.
  intros [= E1 E2 E3 E4 E5 E6 E7 E8 E9]. unfold timer_ok.
  by rewrite E2, E6, E7.
Qed.

Lemma conn_lastReleased_stamp now c c' n s :
  is_Some (conn_lastReleased s c') ->
  is_Some (conn_lastReleased
             (set_heap (alter (stamp now) c (heap s)) n s) c').
Proof.
  unfold conn_lastReleased. simpl. intros H.
  destruct (decide (c = c')) as [->|Hne].
  - rewrite lookup_alter_eq. destruct (heap s !! c'); simpl; [by eexists|done].
  - by rewrite lookup_alter_ne.
Qed.

Lemma conn_lastReleased_stamped now c n s :
  conn_pool s c = true ->
  conn_lastReleased (set_heap (alter (stamp now) c (heap s)) n s) c = Some now.
Proof.
  unfold conn_lastReleased, conn_pool. simpl. intros H.
  rewrite lookup_alter_eq. by destruct (heap s !! c).
Qed.

Lemma getConnection_inv cb s : pool_inv s -> pool_inv (getConnection cb s).
Proof.
  intros (Hw & Hf & (Ha & Hh & Hnd) & He).
  destruct (getConnection_shape cb s)
    as [(_ & ->)|[(_ & c & q & Ef & ->)|[(_ & _ & c & q & Ee & ->)
       |[(_ & Ef & Ee & _ & ->)|[(_ & _ & _ & _ & _ & ->)
       |[(_ & _ & _ & _ & _ & _ & _ & ->)|(_ & _ & _ & _ & _ & Hq & ->)]]]]]];
    unfold pool_inv, waiters_bounded, free_bounded, ids_fresh, extra_stamped,
      conn_lastReleased in *; simpl.
  - done.
  - rewrite Ef in Hf. simpl in Hf. repeat split; try done. lia.
  - rewrite Ee in He. apply Forall_app in He as [He _]. by repeat split.
  - rewrite Ee. split; [done|]. split; [done|]. split; [|done].
    split; [|split].
    + intros c [Hc|Hc]%elem_of_app.
      * apply Ha in Hc. lia.
      * apply list_elem_of_singleton in Hc. lia.
    + intros c [->|[_ Hc]]%lookup_insert_is_Some; [lia|].
      apply Hh in Hc. lia.
    + apply NoDup_app. split; [done|]. split; [|apply NoDup_singleton].
      intros x Hx ->%list_elem_of_singleton. apply Ha in Hx. lia.
  - done.
  - done.
  - split; [|done]. rewrite length_app. simpl.
    destruct Hq as [Hq|Hq]; [by left|right; lia].
Qed.

Lemma getConnection_timer cb s : timer_ok s -> timer_ok (getConnection cb s).
Proof.
  intros Ht.
  destruct (getConnection_shape cb s)
    as [(_ & ->)|[(_ & c & q & Ef & ->)|[(_ & _ & c & q & Ee & ->)
       |[(Hc & Ef & Ee & _ & ->)|[(_ & _ & _ & _ & _ & ->)
       |[(_ & _ & _ & _ & _ & _ & _ & ->)|(_ & _ & _ & _ & _ & Hq & ->)]]]]]];
    unfold timer_ok in *; simpl; try done.
  split; [|done]. intros _. split; [done|]. by destruct (_allConnections s).
Qed.

Lemma releaseConnection_fields now c s :
  config (releaseConnection now c s) = config s
  /\ _allConnections (releaseConnection now c s) = _allConnections s
  /\ _closed (releaseConnection now c s) = _closed s
  /\ _expiredTimer (releaseConnection now c s) = _expiredTimer s
  /\ next_conn (releaseConnection now c s) = next_conn s.
Proof.
  destruct (releaseConnection_shape now c s)
    as [(_ & cb & q & _ & ->)|[(_ & _ & ->)|[(_ & cb & q & _ & ->)
       |[(_ & _ & _ & ->)|(_ & _ & _ & ->)]]]]; done.
Qed.

Lemma releaseConnection_inv now c s :
  pool_inv s -> pool_inv (releaseConnection now c s).
Proof.
  intros (Hw & Hf & (Ha & Hh & Hnd) & He).
  destruct (releaseConnection_shape now c s)
    as [(_ & cb & q & Eq & ->)|[(_ & _ & ->)|[(_ & cb & q & Eq & ->)
       |[(Hp & _ & _ & ->)|(_ & _ & Hm & ->)]]]];
    unfold pool_inv, waiters_bounded, free_bounded, ids_fresh in *; simpl.
  - rewrite Eq in Hw. simpl in Hw. repeat split; try done.
    destruct Hw as [Hw|Hw]; [by left|right; lia].
  - done.
  - rewrite Eq in Hw. simpl in Hw. repeat split; try done.
    destruct Hw as [Hw|Hw]; [by left|right; lia].
  - split; [done|]. split; [done|]. split.
    + split; [done|]. split; [|done].
      intros c' Hc'. apply Hh. by apply lookup_alter_is_Some in Hc'.
    + unfold extra_stamped in *. simpl. apply Forall_app. split.
      * eapply Forall_impl; [exact He|]. intros c' Hc'.
        by apply (conn_lastReleased_stamp now c c' (next_conn s) s).
      * apply Forall_singleton.
        change (is_Some (conn_lastReleased
                  (set_heap (alter (stamp now) c (heap s)) (next_conn s) s) c)).
        by rewrite conn_lastReleased_stamped.
  - split; [done|]. split; [|done]. rewrite length_app. simpl. lia.
Qed.

Lemma spliceConnection_subseteq c x (q : list ConnId) :
  x ∈ spliceConnection q c -> x ∈ q.
Proof.
  destruct (decide (c ∈ q)) as [Hc|Hc].
  - intros Hx. rewrite (spliceConnection_present_perm c q Hc). by right.
  - by rewrite (spliceConnection_absent_perm c q Hc).
Qed.

Lemma spliceConnection_NoDup c (q : list ConnId) :
  NoDup q -> NoDup (spliceConnection q c).
Proof.
  destruct (decide (c ∈ q)) as [Hc|Hc].
  - intros Hnd. rewrite (spliceConnection_present_perm c q Hc) in Hnd.
    by apply NoDup_cons in Hnd as [_ Hnd].
  - by rewrite (spliceConnection_absent_perm c q Hc).
Qed.

(** The three scans of [_removeConnection]. *)
Lemma splices_inv c s :
  pool_inv s ->
  pool_inv
    (set_extra (spliceConnection (_extraConnections s) c)
       (set_free (spliceConnection (_freeConnections s) c)
          (set_all (spliceConnection (_allConnections s) c) s))).
Proof.
  intros (Hw & Hf & (Ha & Hh & Hnd) & He).
  unfold pool_inv, waiters_bounded, free_bounded, ids_fresh, extra_stamped,
    conn_lastReleased in *; simpl.
  split; [done|]. split.
  { etransitivity; [apply spliceConnection_length|done]. }
  split.
  { split; [|split; [done|by apply spliceConnection_NoDup]].
    intros x Hx. by apply Ha, (spliceConnection_subseteq c). }
  apply Forall_forall. intros x Hx.
  apply spliceConnection_subseteq in Hx.
  by eapply Forall_forall in He.
Qed.

Lemma _removeConnection_inv now c s :
  pool_inv s -> pool_inv (_removeConnection now c s).
Proof.
  intros H. unfold _removeConnection. simpl.
  apply (splices_inv c) in H. apply (releaseConnection_inv now c) in H.
  match goal with |- context [if ?b then _ else _] => destruct b end; [|done].
  rewrite _stopExpiredTimer_eq. revert H. by apply pool_inv_ext.
Qed.

Lemma _removeConnection_timer now c s :
  timer_ok s -> timer_ok (_removeConnection now c s).
Proof.
  intros Ht. unfold _removeConnection.
  match goal with |- context [releaseConnection now c ?x] =>
    destruct (releaseConnection_fields now c x) as (_ & Ea & Ec & Et & _);
    set (r := releaseConnection now c x) in * end.
  simpl in Ea, Ec, Et. unfold timer_ok in *.
  destruct (length (_allConnections r) =? 0) eqn:Hl.
  - rewrite _stopExpiredTimer_eq. simpl. rewrite Ea.
    apply Nat.eqb_eq in Hl. rewrite Ea in Hl.
    destruct (spliceConnection (_allConnections s) c); [|done].
    split; [done|]. by intros [_ ?].
  - rewrite Ea, Ec, Et. apply Nat.eqb_neq in Hl. rewrite Ea in Hl.
    assert (Hne : spliceConnection (_allConnections s) c <> [])
      by (by destruct (spliceConnection (_allConnections s) c)).
    assert (Hne' : _allConnections s <> []).
    { intros E. rewrite E in Hne. by apply Hne. }
    split.
    + intros H. apply Ht in H as [H _]. by split.
    + intros [H _]. apply Ht. by split.
Qed.

Lemma detach_inv c s : pool_inv s -> pool_inv (detach c s).
Proof.
  intros (Hw & Hf & (Ha & Hh & Hnd) & He).
  unfold pool_inv, waiters_bounded, free_bounded, ids_fresh, extra_stamped in *;
    simpl.
  split; [done|]. split; [done|]. split.
  - split; [done|]. split; [|done].
    intros c' Hc'. apply Hh. by apply lookup_alter_is_Some in Hc'.
  - eapply Forall_impl; [exact He|]. intros c'.
    unfold conn_lastReleased. simpl.
    destruct (decide (c = c')) as [->|Hne].
    + rewrite lookup_alter_eq. by destruct (heap s !! c').
    + by rewrite lookup_alter_ne.
Qed.

Lemma destroy_inv now c s : pool_inv s -> pool_inv (destroy now c s).
Proof.
  intros H. unfold destroy. destruct (conn_pool s c).
  - apply (detach_inv c), (_removeConnection_inv now c) in H.
    revert H. by apply pool_inv_ext.
  - revert H. by apply pool_inv_ext.
Qed.

Lemma destroy_timer now c s : timer_ok s -> timer_ok (destroy now c s).
Proof.
  intros H. unfold destroy. destruct (conn_pool s c); [|done].
  by apply (_removeConnection_timer now c (detach c s)).
Qed.

Lemma _closeIdleConnections_inv now s :
  pool_inv s -> pool_inv (_closeIdleConnections now s).
Proof.
  apply (closeIdle_loop_inv pool_inv). intros s0 c q E H.
  apply destroy_inv. destruct H as (Hw & Hf & Hi & He).
  repeat split; try done; try apply Hi.
  unfold extra_stamped in *. rewrite E in He.
  by apply Forall_cons in He as [_ He].
Qed.

Lemma _closeIdleConnections_timer now s :
  timer_ok s -> timer_ok (_closeIdleConnections now s).
Proof.
  apply (closeIdle_loop_inv timer_ok). intros s0 c q _ H.
  by apply destroy_timer.
Qed.

Lemma exec_inv o s : pool_inv s -> pool_inv (exec o s).
Proof.
  intros H. destruct o; simpl.
  - by apply getConnection_inv.
  - by apply releaseConnection_inv.
  - apply (pool_inv_fields _ _ (Pool_end_fields cb s)).
    revert H. by apply pool_inv_ext.
  - destruct (_expiredTimer s); [by apply _closeIdleConnections_inv|done].
  - by apply _removeConnection_inv.
  - unfold run_tick. destruct (nextTick s) as [|[cb a|cb] ts]; [done|done|].
    by apply getConnection_inv.
  - by apply (pool_inv_fields _ _ (connected_fields i err s)).
  - by apply (pool_inv_fields _ _ (endCB_fields k err s)).
  - by apply detach_inv.
Qed.

Lemma exec_timer o s : timer_ok s -> timer_ok (exec o s).
Proof.
  intros H. destruct o; simpl.
  - by apply getConnection_timer.
  - destruct (releaseConnection_fields now c s) as (_ & Ea & Ec & Et & _).
    unfold timer_ok. by rewrite Ea, Ec, Et.
  - apply (timer_ok_fields _ _ (Pool_end_fields cb s)).
    unfold timer_ok. simpl. split; [done|]. by intros [? _].
  - destruct (_expiredTimer s) eqn:Ht; [|done].
    by apply _closeIdleConnections_timer.
  - by apply _removeConnection_timer.
  - unfold run_tick. destruct (nextTick s) as [|[cb a|cb] ts]; [done|done|].
    by apply getConnection_timer.
  - by apply (timer_ok_fields _ _ (connected_fields i err s)).
  - by apply (timer_ok_fields _ _ (endCB_fields k err s)).
  - done.
Qed.

Lemma reachable_inv cfg s : reachable cfg s -> pool_inv s /\ timer_ok s.
Proof.
  intros [ops ->]. induction ops as [|o ops [IH1 IH2]] using rev_ind.
  - split.
    + unfold pool_inv, waiters_bounded, free_bounded, ids_fresh, extra_stamped.
      simpl. split; [right; lia|]. split; [lia|]. split; [|done].
      split; [by intros c ?%elem_of_nil|]. split; [|apply NoDup_nil_2].
      intros c [o Ho]. by rewrite lookup_empty in Ho.
    + unfold timer_ok. simpl. split; [done|]. by intros [_ ?].
  - rewrite run_snoc. split; [by apply exec_inv|by apply exec_timer].
Qed.

(** ** Invariants of the pool *)

(** X3: in every state a pool can reach, the eviction timer is set exactly
    when the pool is open and tracks a connection: creating a connection
    starts it, removing the last one and shutting down stop it. *)
Theorem X3_timer_while_open_and_tracking (cfg : PoolConfig) (s : Pool) :
  reachable cfg s ->
  (_expiredTimer s = true <-> _closed s = false /\ _allConnections s <> []).
Proof. intros H. by destruct (reachable_inv cfg s H) as [_ Ht]. Qed.

(** X4: with a queue limit that is not zero, no state a pool can reach holds
    more waiters than [queueLimit]. *)
Theorem X4_waiters_within_queueLimit (cfg : PoolConfig) (s : Pool) :
  queueLimit cfg <> 0 -> reachable cfg s ->
  length (_connectionQueue s) <= queueLimit cfg.
Proof.
  intros Hq H. destruct (reachable_inv cfg s H) as [(Hw & _) _].
  unfold waiters_bounded in Hw.
  rewrite (reachable_config cfg s H) in Hw. by destruct Hw.
Qed.

(** X5: in every state a pool can reach, [_freeConnections] holds at most
    [minConnections] connections; what is released beyond that goes to the
    extra queue. *)
Theorem X5_free_within_minConnections (cfg : PoolConfig) (s : Pool) :
  reachable cfg s -> length (_freeConnections s) <= minConnections cfg.
Proof.
  intros H. destruct (reachable_inv cfg s H) as [(_ & Hf & _) _].
  unfold free_bounded in Hf. by rewrite (reachable_config cfg s H) in Hf.
Qed.

(** X6: in every state a pool can reach, no connection is tracked twice in
    [_allConnections], and so [_removeConnection] leaves the connection it
    is given untracked, whether it was tracked or not, and takes nothing
    else out. *)
Theorem X6_removeConnection_untracks (cfg : PoolConfig) (s : Pool) :
  reachable cfg s ->
  NoDup (_allConnections s)
  /\ forall now c,
       (c ∉ _allConnections (_removeConnection now c s))
       /\ (forall x, x <> c ->
             (x ∈ _allConnections (_removeConnection now c s)
              <-> x ∈ _allConnections s)).
Proof.
  intros H. destruct (reachable_inv cfg s H) as [(_ & _ & (_ & _ & Hnd) & _) _].
  split; [done|]. intros now c.
  destruct (_removeConnection_frame now c s) as (_ & ->).
  destruct (decide (c ∈ _allConnections s)) as [Hc|Hc].
  - pose proof (spliceConnection_present_perm c _ Hc) as HP. split.
    + rewrite HP in Hnd. by apply NoDup_cons in Hnd as [? _].
    + intros x Hx.
      assert (E : x ∈ _allConnections s
                  <-> x ∈ c :: spliceConnection (_allConnections s) c)
        by (by rewrite <- HP).
      rewrite E, elem_of_cons. split; [by right | by intros [?|?]].
  - pose proof (spliceConnection_absent_perm c _ Hc) as HP. split.
    + by rewrite HP.
    + intros x _. by rewrite HP.
Qed.

(** X7: in every state a pool can reach, every connection in
    [_extraConnections] carries a release stamp, so the sweep never compares
    the time with a stamp that is not set. *)
Theorem X7_extra_connections_stamped (cfg : PoolConfig) (s : Pool) (c : ConnId) :
  reachable cfg s -> (c ∈ _extraConnections s) ->
  exists t, conn_lastReleased s c = Some t.
Proof.
  intros H Hc. destruct (reachable_inv cfg s H) as [(_ & _ & _ & He) _].
  unfold extra_stamped in He. by eapply Forall_forall in He.
Qed.

Lemma _removeConnection_closed now c s :
  _closed (_removeConnection now c s) = _closed s.
Proof.
  unfold _removeConnection.
  match goal with |- context [releaseConnection now c ?x] =>
    destruct (releaseConnection_fields now c x) as (_ & _ & Ec & _);
    set (r := releaseConnection now c x) in * end.
  destruct (length (_allConnections r) =? 0);
    rewrite ?_stopExpiredTimer_eq; simpl; by rewrite Ec.
Qed.

Lemma _closeIdleConnections_closed now s :
  _closed (_closeIdleConnections now s) = _closed s.
Proof.
  apply (closeIdle_loop_inv (fun s0 => _closed s0 = _closed s)); [|done].
  intros s0 c q _ H. unfold destroy.
  destruct (conn_pool (set_extra q s0) c); simpl; [|done].
  by rewrite _removeConnection_closed.
Qed.

(** A closed pool stays closed and makes no connection. *)
Lemma exec_closed o s :
  _closed s = true ->
  _closed (exec o s) = true
  /\ length (_allConnections (exec o s)) <= length (_allConnections s).
Proof.
  intros Hc.
  assert (G : forall cb s0, _closed s0 = true ->
            _closed (getConnection cb s0) = true
            /\ length (_allConnections (getConnection cb s0))
               <= length (_allConnections s0)).
  { intros cb s0 H0. unfold getConnection. by rewrite H0. }
  destruct o; simpl.
  - by apply G.
  - destruct (releaseConnection_fields now c s) as (_ & -> & -> & _). by split.
  - pose proof (Pool_end_fields cb s) as [= _ -> _ _ _ -> _ _ _]. by split.
  - destruct (_expiredTimer s); [|by split].
    rewrite _closeIdleConnections_closed. split; [done|].
    apply closeIdle_loop_frame.
  - destruct (_removeConnection_frame now c s) as (_ & ->).
    split; [|apply spliceConnection_length].
    by rewrite _removeConnection_closed.
  - unfold run_tick. destruct (nextTick s) as [|[cb a|cb] ts]; [by split..|].
    by apply (G cb (set_ticks ts s)).
  - pose proof (connected_fields i err s) as [= _ -> _ _ _ -> _ _ _]. by split.
  - pose proof (endCB_fields k err s) as [= _ -> _ _ _ -> _ _ _]. by split.
  - by split.
Qed.

(** X8: shutdown is for good.  From a closed pool, whatever happens next,
    the pool is closed and tracks no more connections than before: nothing
    reopens it and [getConnection] makes no connection for it. *)
Theorem X8_closed_for_good (ops : list Op) (s : Pool) :
  _closed s = true ->
  _closed (run ops s) = true
  /\ length (_allConnections (run ops s)) <= length (_allConnections s).
Proof.
  intros Hc. induction ops as [|o ops [IH1 IH2]] using rev_ind; [by split|].
  rewrite run_snoc. destruct (exec_closed o (run ops s) IH1) as [H1 H2].
  split; [done|lia].
Qed.

(** ** What the sweep destroys *)

Lemma conn_pool_detach c s : conn_pool (detach c s) c = false.
Proof.
  unfold conn_pool. simpl. rewrite lookup_alter_eq. by destruct (heap s !! c).
Qed.

(** What [destroy] does to the pool. *)
Lemma destroy_facts now c s :
  trace (destroy now c s) = trace s ++ [Destroyed c]
  /\ config (destroy now c s) = config s
  /\ (forall c', conn_lastReleased (destroy now c s) c' = conn_lastReleased s c')
  /\ (forall c', c' <> c -> conn_pool (destroy now c s) c' = conn_pool s c')
  /\ (forall x, x ∈ _extraConnections (destroy now c s) -> x ∈ _extraConnections s)
  /\ length (_extraConnections (destroy now c s)) <= length (_extraConnections s)
  /\ (forall x, x ∈ _allConnections (destroy now c s) -> x ∈ _allConnections s)
  /\ (NoDup (_allConnections s) ->
      NoDup (_allConnections (destroy now c s))
      /\ (conn_pool s c = true -> c ∉ _allConnections (destroy now c s))).
Proof.
  unfold destroy. destruct (conn_pool s c) eqn:Hp.
  2:{ simpl. do 7 (split; [done|]). intros Hnd. by split. }
  pose proof (conn_pool_detach c s) as Hd.
  destruct (_removeConnection_buckets now c (detach c s)) as (Ea & _ & Ee).
  rewrite Hd in Ee.
  destruct (_removeConnection_waiters now c (detach c s) Hd) as (Eh & Et & _).
  destruct (_removeConnection_frame now c (detach c s)) as (Ec & _).
  cbn [trace set_trace config _extraConnections _allConnections].
  rewrite Et, Ec, Ea, Ee. simpl.
  split; [done|]. split; [done|]. split.
  { intros c'. unfold conn_lastReleased. simpl. rewrite Eh. simpl.
    destruct (decide (c = c')) as [->|Hne].
    - rewrite lookup_alter_eq. by destruct (heap s !! c').
    - by rewrite lookup_alter_ne. }
  split.
  { intros c' Hne. unfold conn_pool. simpl. rewrite Eh. simpl.
    by rewrite lookup_alter_ne. }
  split; [intros x; apply spliceConnection_subseteq|].
  split; [apply spliceConnection_length|].
  split; [intros x; apply spliceConnection_subseteq|].
  intros Hnd. split; [by apply spliceConnection_NoDup|]. intros _.
  destruct (decide (c ∈ _allConnections s)) as [Hc|Hc].
  - pose proof (spliceConnection_present_perm c _ Hc) as HP.
    rewrite HP in Hnd. by apply NoDup_cons in Hnd as [? _].
  - by rewrite (spliceConnection_absent_perm c _ Hc).
Qed.

(** What the loop destroys, and what becomes of it. *)
Lemma closeIdle_loop_evicts now timeout fuel s :
  exists evicted,
    trace (closeIdle_loop fuel now timeout s) = trace s ++ map Destroyed evicted
    /\ Forall (fun c => c ∈ _extraConnections s
                        /\ expired now timeout (conn_lastReleased s c) = true)
         evicted
    /\ (forall x, x ∈ _allConnections (closeIdle_loop fuel now timeout s) ->
          x ∈ _allConnections s)
    /\ (NoDup (_allConnections s) ->
        Forall (fun c => conn_pool s c = true ->
                         c ∉ _allConnections (closeIdle_loop fuel now timeout s))
          evicted)
    /\ (forall c q, 0 < fuel -> _extraConnections s = c :: q ->
          expired now timeout (conn_lastReleased s c) = true ->
          exists rest, evicted = c :: rest).
Proof.
  revert s. induction fuel as [|fuel IH]; intros s.
  { exists []. simpl. rewrite app_nil_r. repeat (split; [done|]).
    intros c q H. lia. }
  simpl. destruct (_extraConnections s) as [|c q] eqn:E; simpl.
  { exists []. simpl. rewrite app_nil_r. repeat (split; [done|]).
    by intros c q _ [=]. }
  destruct (expired now timeout (conn_lastReleased s c)) eqn:Hex.
  2:{ exists []. simpl. rewrite app_nil_r. repeat (split; [done|]).
      intros c' q' _ [= <- <-]. congruence. }
  destruct (destroy_facts now c (set_extra q s))
    as (Dt & _ & Dl & Dp & De & _ & Da & Dn).
  destruct (IH (destroy now c (set_extra q s)))
    as (ev & Ht & Hev & Hall & Hun & _).
  cbn [trace _allConnections set_extra] in Dt, Da, Dn.
  set (s1 := destroy now c (set_extra q s)) in *.
  exists (c :: ev).
  split; [rewrite Ht, Dt, <- app_assoc; done|].
  split.
  { constructor.
    - split; [by left|done].
    - eapply Forall_impl; [exact Hev|]. intros c' [Hin Hx]. split.
      + right. apply De in Hin. exact Hin.
      + rewrite Dl in Hx. exact Hx. }
  split; [intros x Hx; by apply Da, Hall|].
  split.
  { intros Hnd. destruct (Dn Hnd) as [Hnd1 Hc]. constructor.
    - intros Hp Hin. apply Hall in Hin. by apply Hc.
    - specialize (Hun Hnd1).
      eapply Forall_impl; [exact Hun|]. intros c' Hc' Hp'.
      destruct (decide (c' = c)) as [->|Hne].
      + intros Hin. apply Hall in Hin. by apply Hc.
      + apply Hc'. rewrite (Dp c' Hne). exact Hp'. }
  intros c' q' _ [= <- <-] _. by exists ev.
Qed.

(** X9: the sweep destroys idle connections of the extra queue only, each
    of them expired, and the first one whenever it is expired; nothing else
    is called or destroyed.  No connection becomes tracked by it, and where
    no connection is tracked twice, every destroyed connection that
    referenced the pool is out of [_allConnections] afterwards. *)
Theorem X9_sweep_destroys_expired_idle_only (now : Z) (s : Pool) :
  NoDup (_allConnections s) ->
  exists evicted,
    trace (_closeIdleConnections now s) = trace s ++ map Destroyed evicted
    /\ Forall (fun c => c ∈ _extraConnections s
                        /\ expired now (idleTimeout (config s) * 1000)
                             (conn_lastReleased s c) = true) evicted
    /\ (forall x, x ∈ _allConnections (_closeIdleConnections now s) ->
          x ∈ _allConnections s)
    /\ Forall (fun c => conn_pool s c = true ->
                        c ∉ _allConnections (_closeIdleConnections now s)) evicted
    /\ (forall c q, _extraConnections s = c :: q ->
          expired now (idleTimeout (config s) * 1000) (conn_lastReleased s c) = true ->
          exists rest, evicted = c :: rest).
Proof.
  intros Hnd. unfold _closeIdleConnections.
  destruct (closeIdle_loop_evicts now (idleTimeout (config s) * 1000)
              (length (_extraConnections s)) s)
    as (ev & H1 & H2 & H3 & H4 & H5).
  exists ev. repeat (split; [done|]). split; [by apply H4|].
  intros c q E Hx. apply (H5 c q); [|done..]. rewrite E. simpl. lia.
Qed.

Lemma expired_earlier now now' timeout x :
  (now' <= now)%Z -> expired now timeout x = false ->
  expired now' timeout x = false.
Proof.
  intros Hle. destruct x as [t|]; simpl; [|done].
  rewrite !Z.ltb_ge. lia.
Qed.

(** With fuel for every connection of the queue, the loop ends on an empty
    queue or on a first connection that is not expired. *)
Lemma closeIdle_loop_front now timeout fuel s :
  length (_extraConnections s) <= fuel ->
  forall c q,
    _extraConnections (closeIdle_loop fuel now timeout s) = c :: q ->
    expired now timeout
      (conn_lastReleased (closeIdle_loop fuel now timeout s) c) = false.
Proof.
  revert s. induction fuel as [|fuel IH]; intros s Hl c q; simpl.
  { intros E. rewrite E in Hl. simpl in Hl. lia. }
  destruct (_extraConnections s) as [|c0 q0] eqn:E; simpl.
  { by rewrite E. }
  destruct (expired now timeout (conn_lastReleased s c0)) eqn:Hex.
  2:{ rewrite E. intros [= <- <-]. exact Hex. }
  apply IH.
  destruct (destroy_facts now c0 (set_extra q0 s)) as (_ & _ & _ & _ & _ & Dl & _).
  simpl in *. lia.
Qed.

(** X10: a sweep leaves nothing to a sweep that is not later: run again with
    the same or an earlier time, it finds the first connection not expired
    and changes nothing. *)
Theorem X10_sweep_again_changes_nothing (now now' : Z) (s : Pool) :
  (now' <= now)%Z ->
  _closeIdleConnections now' (_closeIdleConnections now s)
  = _closeIdleConnections now s.
Proof.
  intros Hle.
  pose proof (closeIdle_loop_frame (length (_extraConnections s)) now
                (idleTimeout (config s) * 1000) s) as (Hc & _).
  pose proof (closeIdle_loop_front now (idleTimeout (config s) * 1000)
                (length (_extraConnections s)) s (le_n _)) as Hf.
  fold (_closeIdleConnections now s) in Hc, Hf.
  set (s' := _closeIdleConnections now s) in *.
  unfold _closeIdleConnections at 1. rewrite Hc.
  destruct (_extraConnections s') as [|c q] eqn:E; [done|]. simpl.
  rewrite E. simpl.
  by rewrite (expired_earlier now now' _ _ Hle (Hf c q eq_refl)).
Qed.

(** ** Release and acquire together *)

(** X11: in an open pool without waiters and with no free connection, a
    connection that is released (its back-reference set) is the one the next
    [getConnection] takes, from whichever idle queue it went to; the idle
    queues are then as they were, and no connection is made. *)
Theorem X11_release_then_acquire (now : Z) (c : ConnId) (cb : Callback) (s : Pool) :
  _closed s = false -> _connectionQueue s = [] -> _freeConnections s = [] ->
  conn_pool s c = true ->
  let s' := getConnection cb (releaseConnection now c s) in
  nextTick s' = nextTick s ++ [TkInvoke cb (ArgConn c)]
  /\ _freeConnections s' = []
  /\ _extraConnections s' = _extraConnections s
  /\ _allConnections s' = _allConnections s
  /\ connecting s' = connecting s
  /\ trace s' = trace s.
Proof.
  intros Hc Hq Hf Hp s'. subst s'.
  destruct (releaseConnection_shape now c s)
    as [(Hp' & _)|[(Hp' & _)|[(_ & cb' & q & Eq & _)
       |[(_ & _ & _ & ->)|(_ & _ & _ & ->)]]]]; try congruence.
  - rewrite (getConnection_extra cb c (_extraConnections s)); by simpl.
  - rewrite (getConnection_free cb c []); simpl; try done. by rewrite Hf.
Qed.

(** X12: waiters are served in the order they came.  When as many
    connections or fewer as there are waiters are released (back-references
    set), the first waiters leave the queue, the call of each with the
    connection released in its turn is deferred in that order, and no
    connection reaches an idle queue. *)
Theorem X12_waiters_served_in_order (rs : list (Z * ConnId)) (s : Pool) :
  Forall (fun r => conn_pool s r.2 = true) rs ->
  length rs <= length (_connectionQueue s) ->
  let s' := run (map (fun r => OpRelease r.1 r.2) rs) s in
  _connectionQueue s' = drop (length rs) (_connectionQueue s)
  /\ nextTick s'
     = nextTick s
       ++ zip_with (fun cb r => TkInvoke cb (ArgConn r.2)) (_connectionQueue s) rs
  /\ _freeConnections s' = _freeConnections s
  /\ _extraConnections s' = _extraConnections s
  /\ heap s' = heap s
  /\ trace s' = trace s.
Proof.
  revert s. induction rs as [|[now c] rs IH]; intros s Hp Hl; simpl.
  { replace (zip_with (fun cb r => TkInvoke cb (ArgConn r.2))
               (_connectionQueue s) []) with (@nil Task)
      by (by destruct (_connectionQueue s)).
    by rewrite app_nil_r. }
  apply Forall_cons in Hp as [Hc Hp]. simpl in Hc, Hl.
  destruct (_connectionQueue s) as [|cb q] eqn:Eq; [simpl in Hl; lia|].
  assert (E : releaseConnection now c s
              = defer (TkInvoke cb (ArgConn c)) (set_queue q s)).
  { unfold releaseConnection. by rewrite Hc, Eq. }
  fold (run (map (fun r => OpRelease r.1 r.2) rs) (releaseConnection now c s)).
  rewrite E.
  destruct (IH (defer (TkInvoke cb (ArgConn c)) (set_queue q s)))
    as (H1 & H2 & H3 & H4 & H5 & H6).
  { done. }
  { simpl in *. lia. }
  simpl in *. rewrite H1, H2, H3, H4, H5, H6.
  by rewrite <- app_assoc.
Qed.

(** ** No continuation is lost, none is called twice *)

Lemma owed_ticks_app cb t1 t2 :
  owed_ticks cb (t1 ++ t2) = owed_ticks cb t1 + owed_ticks cb t2.
Proof.
  induction t1 as [|[cb' a|cb'] t1 IH]; simpl; [done|rewrite IH; lia..].
Qed.

Lemma waiting_app cb q1 q2 :
  waiting cb (q1 ++ q2) = waiting cb q1 + waiting cb q2.
Proof. induction q1 as [|cb' q1 IH]; simpl; [done|rewrite IH; lia]. Qed.

Lemma establishing_app cb l1 l2 :
  establishing cb (l1 ++ l2) = establishing cb l1 + establishing cb l2.
Proof. induction l1 as [|p l1 IH]; simpl; [done|rewrite IH; lia]. Qed.

Lemma shutting_app cb l1 l2 :
  shutting cb (l1 ++ l2) = shutting cb l1 + shutting cb l2.
Proof. induction l1 as [|p l1 IH]; simpl; [done|rewrite IH; lia]. Qed.

Lemma establishing_delete cb i l c cb0 :
  l !! i = Some (c, cb0) ->
  establishing cb l = hit cb0 cb + establishing cb (delete i l).
Proof.
  revert i. induction l as [|p l IH]; intros [|i] H; simpl in *; try done.
  - by injection H as ->.
  - rewrite (IH i H). lia.
Qed.

Lemma shutting_insert cb k l ctx ctx' :
  l !! k = Some ctx ->
  shutting cb (<[k := ctx']> l) + pending_end cb ctx
  = shutting cb l + pending_end cb ctx'.
Proof.
  revert k. induction l as [|x l IH]; intros [|k] H; simpl in *; try done.
  - injection H as ->. lia.
  - specialize (IH k H). lia.
Qed.

Lemma calls_single cb cb0 a : length (calls cb [Invoke cb0 a]) = hit cb0 cb.
Proof. unfold hit. simpl. by case_decide. Qed.

Lemma owed_invoke cb cb0 a s : owed cb (invoke cb0 a s) = owed cb s + hit cb0 cb.
Proof.
  unfold owed. simpl. rewrite calls_app, length_app, calls_single. lia.
Qed.

Lemma owed_defer cb t s :
  owed cb (defer t s) = owed cb s + owed_ticks cb [t].
Proof. destruct t; unfold owed; simpl; rewrite owed_ticks_app; simpl; lia. Qed.

Lemma owed_connect cb c cb0 s :
  owed cb (connect c cb0 s) = owed cb s + hit cb0 cb.
Proof.
  unfold owed. simpl. rewrite calls_app, establishing_app, app_nil_r. simpl. lia.
Qed.

Lemma owed_set_queue cb q s :
  owed cb (set_queue q s) + waiting cb (_connectionQueue s)
  = owed cb s + waiting cb q.
Proof. unfold owed. simpl. lia. Qed.

Lemma owed_set_ticks cb ts s :
  owed cb (set_ticks ts s) + owed_ticks cb (nextTick s)
  = owed cb s + owed_ticks cb ts.
Proof. unfold owed. simpl. lia. Qed.

(** A trace of requests to connections calls nobody. *)
Lemma calls_requests cb (t : list Event) :
  Forall (fun e => forall cb' a, e <> Invoke cb' a) t -> calls cb t = [].
Proof.
  induction 1 as [|e t He _ IH]; [done|]. simpl.
  destruct e; try done. by destruct (He cb0 a).
Qed.

Lemma owed_getConnection cb cb0 s :
  owed cb (getConnection cb0 s) = owed cb s + hit cb0 cb.
Proof.
  destruct (getConnection_shape cb0 s)
    as [(_ & ->)|[(_ & c & q & Ef & ->)|[(_ & _ & c & q & Ee & ->)
       |[(_ & _ & _ & _ & ->)|[(_ & _ & _ & _ & _ & ->)
       |[(_ & _ & _ & _ & _ & _ & _ & ->)|(_ & _ & _ & _ & _ & _ & ->)]]]]]].
  - rewrite owed_defer. simpl. lia.
  - rewrite owed_defer. simpl. change (owed cb (set_free q s)) with (owed cb s).
    lia.
  - rewrite owed_defer. simpl. change (owed cb (set_extra q s)) with (owed cb s).
    lia.
  - by rewrite owed_connect.
  - rewrite owed_defer. simpl. lia.
  - by rewrite owed_invoke.
  - pose proof (owed_set_queue cb (_connectionQueue s ++ [cb0]) (emit EvEnqueue s))
      as H.
    rewrite waiting_app in H. simpl in H.
    assert (E : owed cb (emit EvEnqueue s) = owed cb s).
    { unfold owed. simpl. rewrite calls_app. simpl. by rewrite app_nil_r. }
    lia.
Qed.

Lemma owed_releaseConnection cb now c s :
  owed cb (releaseConnection now c s) = owed cb s.
Proof.
  destruct (releaseConnection_shape now c s)
    as [(_ & cb0 & q & Eq & ->)|[(_ & _ & ->)|[(_ & cb0 & q & Eq & ->)
       |[(_ & _ & _ & ->)|(_ & _ & _ & ->)]]]]; try done.
  - rewrite owed_defer. pose proof (owed_set_queue cb q s) as H.
    rewrite Eq in H. simpl in *. lia.
  - rewrite owed_defer. pose proof (owed_set_queue cb q s) as H.
    rewrite Eq in H. simpl in *. lia.
Qed.

Lemma owed_endCB cb k err s : owed cb (endCB k err s) = owed cb s.
Proof.
  unfold endCB. destruct (ending s !! k) as [ctx|] eqn:Hk; [|done].
  destruct (calledBack ctx) eqn:Hc; [done|].
  assert (P : pending_end cb ctx = hit (end_cb ctx) cb)
    by (unfold pending_end; by rewrite Hc).
  destruct err as [e|].
  - rewrite owed_invoke. unfold owed. simpl.
    match goal with |- context [<[k := ?x]> (ending s)] =>
      pose proof (shutting_insert cb k (ending s) ctx x Hk) as H end.
    unfold pending_end at 2 in H. simpl in H. lia.
  - destruct (length (_allConnections s) <=? S (closedConnections ctx)).
    + rewrite owed_invoke. unfold owed. simpl.
      match goal with |- context [<[k := ?x]> (ending s)] =>
        pose proof (shutting_insert cb k (ending s) ctx x Hk) as H end.
      unfold pending_end at 2 in H. simpl in H. lia.
    + unfold owed. simpl.
      match goal with |- context [<[k := ?x]> (ending s)] =>
        pose proof (shutting_insert cb k (ending s) ctx x Hk) as H end.
      unfold pending_end at 2 in H. simpl in H. lia.
Qed.

Lemma owed_end_loop cb k conns s : owed cb (end_loop k conns s) = owed cb s.
Proof.
  revert s. induction conns as [|c conns IH]; intros s; simpl; [done|].
  rewrite IH. unfold owed. simpl. rewrite calls_app. simpl.
  by rewrite app_nil_r.
Qed.

Lemma owed_Pool_end cb cb0 s :
  owed cb (Pool_end cb0 s) = owed cb s + hit (default ThrowIfError cb0) cb.
Proof.
  unfold Pool_end. rewrite _stopExpiredTimer_eq. simpl.
  match goal with |- context [set_ending ?l ?x] =>
    assert (E : owed cb (set_ending l x)
                = owed cb s + hit (default ThrowIfError cb0) cb) end.
  { unfold owed. simpl. rewrite shutting_app. simpl. unfold pending_end. simpl.
    lia. }
  destruct (length (_allConnections s) =? 0).
  - by rewrite owed_endCB.
  - by rewrite owed_end_loop.
Qed.

Lemma owed_removeConnection cb now c s :
  owed cb (_removeConnection now c s) = owed cb s.
Proof.
  unfold _removeConnection.
  match goal with |- context [releaseConnection now c ?x] =>
    pose proof (owed_releaseConnection cb now c x) as H;
    set (r := releaseConnection now c x) in * end.
  transitivity (owed cb r); [|by rewrite H].
  destruct (length (_allConnections r) =? 0);
    by rewrite ?_stopExpiredTimer_eq.
Qed.

Lemma owed_destroy cb now c s : owed cb (destroy now c s) = owed cb s.
Proof.
  unfold destroy.
  assert (E : forall r, owed cb (set_trace (trace r ++ [Destroyed c]) r)
                        = owed cb r).
  { intros r. unfold owed. simpl. rewrite calls_app. simpl.
    by rewrite app_nil_r. }
  rewrite E. destruct (conn_pool s c); [|done].
  by rewrite owed_removeConnection.
Qed.

Lemma owed_closeIdle_loop cb fuel now timeout s :
  owed cb (closeIdle_loop fuel now timeout s) = owed cb s.
Proof.
  apply (closeIdle_loop_inv (fun s0 => owed cb s0 = owed cb s)); [|done].
  intros s0 c q _ H. by rewrite owed_destroy.
Qed.

Lemma owed_connected cb i err s : owed cb (connected i err s) = owed cb s.
Proof.
  unfold connected. destruct (connecting s !! i) as [[c cb0]|] eqn:Hi; [|done].
  pose proof (establishing_delete cb i _ c cb0 Hi) as H.
  assert (E : owed cb (set_connecting (delete i (connecting s)) s) + hit cb0 cb
              = owed cb s) by (unfold owed; simpl; lia).
  simpl. destruct (_closed s); [rewrite owed_invoke; lia|].
  destruct err; rewrite owed_invoke; [lia|].
  match goal with |- context [emit ?e ?x] =>
    assert (F : owed cb (emit e x) = owed cb x)
      by (unfold owed; simpl; rewrite calls_app; simpl; by rewrite app_nil_r)
  end.
  lia.
Qed.

Lemma owed_exec cb o s : owed cb (exec o s) = owed cb s + request cb o.
Proof.
  destruct o; simpl; rewrite ?Nat.add_0_r.
  - apply owed_getConnection.
  - apply owed_releaseConnection.
  - apply owed_Pool_end.
  - destruct (_expiredTimer s); [apply owed_closeIdle_loop|done].
  - apply owed_removeConnection.
  - unfold run_tick. destruct (nextTick s) as [|[cb0 a|cb0] ts] eqn:Et; [done|..].
    + rewrite owed_invoke. pose proof (owed_set_ticks cb ts s) as H.
      rewrite Et in H. simpl in H. lia.
    + rewrite owed_getConnection. pose proof (owed_set_ticks cb ts s) as H.
      rewrite Et in H. simpl in H. lia.
  - apply owed_connected.
  - apply owed_endCB.
  - done.
Qed.

(** X13: the pool keeps account of every continuation.  [getConnection] and
    [end] add one to what their continuation is owed, and no operation
    changes the sum of the calls made and the calls still held (deferred,
    waiting, with an establishment or with a shutdown) otherwise.  So after
    any run from a new pool, that sum is the number of requests made with the
    continuation: it has been called no more often than that, and exactly as
    often once the pool holds nothing for it. *)
Theorem X13_continuations_accounted (cb : Callback) :
  (forall o s, owed cb (exec o s) = owed cb s + request cb o)
  /\ (forall ops s, owed cb (run ops s) = owed cb s + requests cb ops)
  /\ (forall cfg ops,
        owed cb (run ops (Pool_new cfg)) = requests cb ops
        /\ length (calls cb (trace (run ops (Pool_new cfg)))) <= requests cb ops).
Proof.
  assert (R : forall ops s, owed cb (run ops s) = owed cb s + requests cb ops).
  { induction ops as [|o ops IH]; intros s; simpl; [lia|].
    fold (run ops (exec o s)). rewrite IH, owed_exec. lia. }
  split; [apply owed_exec|]. split; [exact R|].
  intros cfg ops. pose proof (R ops (Pool_new cfg)) as H.
  assert (E : owed cb (Pool_new cfg) = 0) by reflexivity.
  split; [lia|]. unfold owed in H at 1. lia.
Qed.

(** ** A failed connection and the waiters *)

(** X14: a waiter is served when a connection in use fails.  In an open pool
    without idle connections, at or below its limit, with nothing deferred,
    removing a tracked connection whose back-reference is cleared takes the
    oldest waiter off the queue; the scheduler then runs its acquisition,
    which makes a new connection in place of the lost one and starts its
    establishment for that waiter, with the timer set. *)
Theorem X14_failed_connection_replaced
  (now : Z) (c : ConnId) (cb : Callback) (q : list Callback) (s : Pool) :
  _closed s = false -> conn_pool s c = false -> (c ∈ _allConnections s) ->
  _freeConnections s = [] -> _extraConnections s = [] ->
  _connectionQueue s = cb :: q -> nextTick s = [] ->
  (connectionLimit (config s) = 0
   \/ length (_allConnections s) <= connectionLimit (config s)) ->
  let s' := run_tick (_removeConnection now c s) in
  _allConnections s' = spliceConnection (_allConnections s) c ++ [next_conn s]
  /\ S (length (spliceConnection (_allConnections s) c))
     = length (_allConnections s)
  /\ connecting s' = connecting s ++ [(next_conn s, cb)]
  /\ _connectionQueue s' = q
  /\ nextTick s' = []
  /\ _expiredTimer s' = true
  /\ conn_pool s' (next_conn s) = true.
Proof.
  intros Hc Hp Hin Hf He Hq Ht Hlim s'. subst s'.
  pose proof (spliceConnection_present_perm c _ Hin) as HP.
  apply Permutation_length in HP. simpl in HP.
  set (all' := spliceConnection (_allConnections s) c) in *.
  set (s3 := set_extra [] (set_free [] (set_all all' s))).
  assert (E : _removeConnection now c s
              = (if length all' =? 0 then set_timer false
                 else fun x => x)
                  (defer (TkGetConnection cb) (set_queue q s3))).
  { unfold _removeConnection. simpl. rewrite Hf, He.
    change (spliceConnection [] c) with (@nil ConnId).
    fold all'. fold s3.
    assert (R : releaseConnection now c s3
                = defer (TkGetConnection cb) (set_queue q s3)).
    { unfold releaseConnection.
      change (conn_pool s3 c) with (conn_pool s c). rewrite Hp. simpl.
      by rewrite Hq. }
    rewrite R. simpl.
    destruct (length all' =? 0); [by rewrite _stopExpiredTimer_eq|done]. }
  rewrite E.
  set (r := (if length all' =? 0 then set_timer false else fun x => x)
              (defer (TkGetConnection cb) (set_queue q s3))).
  assert (Hr : nextTick r = [TkGetConnection cb]
               /\ _closed r = false /\ _freeConnections r = []
               /\ _extraConnections r = [] /\ _allConnections r = all'
               /\ config r = config s /\ next_conn r = next_conn s
               /\ connecting r = connecting s /\ _connectionQueue r = q
               /\ heap r = heap s).
  { unfold r. destruct (length all' =? 0); simpl; by rewrite Ht, Hc. }
  destruct Hr as (R1 & R2 & R3 & R4 & R5 & R6 & R7 & R8 & R9 & R10).
  rewrite (run_tick_getConnection cb [] r R1).
  rewrite getConnection_no_idle by done. simpl. rewrite R5, R6.
  replace ((connectionLimit (config s) =? 0)
           || (length all' <? connectionLimit (config s))) with true.
  2:{ symmetry. apply orb_true_iff. destruct Hlim as [H|H].
      - left. by apply Nat.eqb_eq.
      - right. apply Nat.ltb_lt. lia. }
  unfold new_PoolConnection. rewrite _startExpiredTimer_eq. simpl.
  rewrite R5, R7, R8, R9. split; [done|]. split; [lia|].
  split; [done|]. split; [done|]. split; [done|]. split; [done|].
  unfold conn_pool. simpl. by rewrite lookup_insert_eq.
Qed.

(** ** The configuration, read again *)

(** X15: [PoolConfig] changes nothing in a configuration it has made: given
    as options what an accepted configuration holds, it yields this
    configuration again whenever the connection configuration is built. *)
Theorem X15_PoolConfig_settled
  (ConnectionConfig : Type)
  (parseUrl : String.string -> option Options)
  (ConnectionConfig_new : Options -> option ConnectionConfig)
  (options : String.string + Options)
  (cc cc' : ConnectionConfig) (cfg : PoolConfig) :
  PoolConfig_new ConnectionConfig parseUrl ConnectionConfig_new options
    = Some (cc, cfg) ->
  ConnectionConfig_new (options_of cfg) = Some cc' ->
  PoolConfig_new ConnectionConfig parseUrl ConnectionConfig_new
    (inr (options_of cfg)) = Some (cc', cfg).
Proof.
  intros H Hcc. unfold PoolConfig_new in *.
  destruct (parse_options parseUrl options) as [o|]; [|done]. simpl in *.
  destruct (ConnectionConfig_new o) as [x|]; [|done]. simpl in H.
  injection H as <- <-. rewrite Hcc.
  cbn [mbind option_bind options_of opt_waitForConnections opt_connectionLimit
       opt_queueLimit opt_minConnections opt_idleTimeout waitForConnections
       connectionLimit queueLimit minConnections idleTimeout].
  do 2 f_equal. f_equal; [lia|lia].
Qed.

(** ** Shutdown and what is under way *)

Lemma endCB_world k err s :
  nextTick (endCB k err s) = nextTick s
  /\ connecting (endCB k err s) = connecting s.
Proof. unfold endCB. break_match; done. Qed.

Lemma end_loop_world k conns s :
  nextTick (end_loop k conns s) = nextTick s
  /\ connecting (end_loop k conns s) = connecting s.
Proof.
  revert s. induction conns as [|c conns IH]; intros s; simpl; [done|].
  by destruct (IH (_realEnd k c s)) as (-> & ->).
Qed.

Lemma Pool_end_world cb s :
  nextTick (Pool_end cb s) = nextTick s
  /\ connecting (Pool_end cb s) = connecting s.
Proof.
  unfold Pool_end. rewrite _stopExpiredTimer_eq.
  destruct (length _ =? 0).
  - match goal with |- context [endCB ?k ?e ?x] =>
      by destruct (endCB_world k e x) as (-> & ->) end.
  - match goal with |- context [end_loop ?k ?l ?x] =>
      by destruct (end_loop_world k l x) as (-> & ->) end.
Qed.

(** X16: [end] leaves the waiters where they are.  It sets the flag and
    stops the timer, but the queue of waiters, the idle queues, the tracked
    connections, the deferred tasks and the pending establishments are what
    they were, and no continuation other than its own is called. *)
Theorem X16_end_keeps_waiters (cb : option Callback) (s : Pool) :
  _connectionQueue (Pool_end cb s) = _connectionQueue s
  /\ _allConnections (Pool_end cb s) = _allConnections s
  /\ _freeConnections (Pool_end cb s) = _freeConnections s
  /\ _extraConnections (Pool_end cb s) = _extraConnections s
  /\ nextTick (Pool_end cb s) = nextTick s
  /\ connecting (Pool_end cb s) = connecting s
  /\ _expiredTimer (Pool_end cb s) = false
  /\ forall w, w <> default ThrowIfError cb ->
       calls w (trace (Pool_end cb s)) = calls w (trace s).
Proof.
  pose proof (Pool_end_fields cb s) as [= _ Ea Ef Ee Eq _ Et _ _].
  destruct (Pool_end_world cb s) as (En & Ec).
  repeat (split; [done|]). intros w Hw.
  destruct (_allConnections s) as [|c l] eqn:Hall.
  - destruct (Pool_end_none cb s Hall) as (_ & -> & _).
    rewrite calls_app. simpl. rewrite decide_False by done. by rewrite app_nil_r.
  - destruct (Pool_end_asks cb s) as (_ & _ & _ & Htr & _); [by rewrite Hall|].
    rewrite Htr, calls_app, (calls_requests w (map _ _)), app_nil_r; [done|].
    apply Forall_map, Forall_forall. by intros x _ cb' a.
Qed.

(** ** A new connection, from the request to the call *)

Lemma getConnection_create cb s :
  _closed s = false -> _freeConnections s = [] -> _extraConnections s = [] ->
  (connectionLimit (config s) = 0
   \/ length (_allConnections s) < connectionLimit (config s)) ->
  getConnection cb s
  = connect (next_conn s) cb
      (set_all (_allConnections s ++ [next_conn s])
         (set_timer true
            (set_heap (<[next_conn s := {| _pool := true; _lastReleased := None |}]>
                         (heap s)) (S (next_conn s)) s))).
Proof.
  intros Hc Hf He Hlim.
  destruct (getConnection_shape cb s)
    as [(H & _)|[(_ & c & q & H & _)|[(_ & _ & c & q & H & _)
       |[(_ & _ & _ & _ & ->)|[(_ & _ & _ & [H1 H2] & _)
       |[(_ & _ & _ & [H1 H2] & _)|(_ & _ & _ & [H1 H2] & _)]]]]]];
    try congruence; try done.
  - rewrite He in H. by destruct q.
  - destruct Hlim; [done|lia].
  - destruct Hlim; [done|lia].
  - destruct Hlim; [done|lia].
Qed.

(** X17: without an idle connection and below the limit (or without one),
    [getConnection] on an open pool calls nothing and defers nothing: it
    tracks a new connection, whose back-reference is set, sets the timer and
    asks for the establishment.  When that ends without error, the pool
    still open, the 'connection' event is emitted and then the continuation
    is called with this connection, once; the establishment is no longer
    pending. *)
Theorem X17_new_connection_delivered (cb : Callback) (s : Pool) :
  _closed s = false -> _freeConnections s = [] -> _extraConnections s = [] ->
  (connectionLimit (config s) = 0
   \/ length (_allConnections s) < connectionLimit (config s)) ->
  let c := next_conn s in
  let s1 := getConnection cb s in
  let s2 := connected (length (connecting s)) None s1 in
  trace s1 = trace s ++ [ConnectReq c]
  /\ nextTick s1 = nextTick s
  /\ connecting s1 = connecting s ++ [(c, cb)]
  /\ trace s2 = trace s ++ [ConnectReq c; Emit (EvConnection c); Invoke cb (ArgConn c)]
  /\ connecting s2 = connecting s
  /\ _allConnections s2 = _allConnections s ++ [c]
  /\ conn_pool s2 c = true
  /\ _expiredTimer s2 = true.
Proof.
  intros Hc Hf He Hlim c s1 s2. subst c s1 s2.
  rewrite (getConnection_create cb s Hc Hf He Hlim).
  unfold connected. simpl.
  rewrite list_lookup_middle by done. simpl. rewrite Hc. simpl.
  rewrite <- !app_assoc. simpl.
  repeat (split; [done|]).
  split; [by rewrite delete_middle, app_nil_r|].
  split; [done|]. split; [|done].
  unfold conn_pool. simpl. by rewrite lookup_insert_eq.
Qed.

(** X18: when the pool is shut down while the establishment of a new
    connection is under way, [end] asks this connection to end with the
    others, and when the establishment ends, with or without error, the
    continuation is called with the error that the pool is closed; the
    connection stays tracked. *)
Theorem X18_closed_while_establishing
  (cb : Callback) (ecb : option Callback) (err : option Error) (s : Pool) :
  _closed s = false -> _freeConnections s = [] -> _extraConnections s = [] ->
  (connectionLimit (config s) = 0
   \/ length (_allConnections s) < connectionLimit (config s)) ->
  let c := next_conn s in
  let s1 := Pool_end ecb (getConnection cb s) in
  let s2 := connected (length (connecting s)) err s1 in
  trace s1
  = trace s ++ [ConnectReq c]
    ++ map (fun x => RealEndReq x (length (ending s))) (_allConnections s ++ [c])
  /\ trace s2 = trace s1 ++ [Invoke cb (ArgErr PoolClosed)]
  /\ connecting s2 = connecting s
  /\ _allConnections s2 = _allConnections s ++ [c].
Proof.
  intros Hc Hf He Hlim c s1 s2.
  pose proof (getConnection_create cb s Hc Hf He Hlim) as E. fold c in E.
  assert (Ht : trace (getConnection cb s) = trace s ++ [ConnectReq c])
    by (by rewrite E).
  assert (Hcn : connecting (getConnection cb s) = connecting s ++ [(c, cb)])
    by (by rewrite E).
  assert (Ea : _allConnections (getConnection cb s) = _allConnections s ++ [c])
    by (by rewrite E).
  assert (Ee : ending (getConnection cb s) = ending s) by (by rewrite E).
  destruct (Pool_end_asks ecb (getConnection cb s))
    as (Hcl & _ & Ha' & Htr & _).
  { rewrite Ea. by destruct (_allConnections s). }
  destruct (Pool_end_world ecb (getConnection cb s)) as (_ & Hcn').
  fold s1 in Hcl, Ha', Htr, Hcn'.
  rewrite Ht, Ea, Ee in Htr. rewrite <- app_assoc in Htr.
  split; [done|].
  subst s2. unfold connected. rewrite Hcn', Hcn.
  rewrite list_lookup_middle by done. simpl. rewrite Hcl. simpl.
  split; [done|]. split; [by rewrite delete_middle, app_nil_r|].
  by rewrite Ha', Ea.
Qed.

(** ** Pools in which nobody waits *)

Lemma exec_no_waiters o s :
  (connectionLimit (config s) = 0 \/ waitForConnections (config s) = false) ->
  _connectionQueue s = [] -> _connectionQueue (exec o s) = [].
Proof.
  intros Hcfg Hq.
  assert (G : forall cb s0,
            (connectionLimit (config s0) = 0
             \/ waitForConnections (config s0) = false) ->
            _connectionQueue s0 = [] -> _connectionQueue (getConnection cb s0) = []).
  { intros cb s0 H0 Hq0.
    destruct (getConnection_shape cb s0)
      as [(_ & ->)|[(_ & c & q & _ & ->)|[(_ & _ & c & q & _ & ->)
         |[(_ & _ & _ & _ & ->)|[(_ & _ & _ & _ & _ & ->)
         |[(_ & _ & _ & _ & _ & _ & _ & ->)|(_ & _ & _ & [H1 _] & Hw & _)]]]]]];
      try done.
    destruct H0; congruence. }
  assert (R : forall now c s0,
            _connectionQueue s0 = [] ->
            _connectionQueue (releaseConnection now c s0) = []).
  { intros now c s0 Hq0.
    destruct (releaseConnection_shape now c s0)
      as [(_ & cb0 & q & Eq & _)|[(_ & _ & ->)|[(_ & cb0 & q & Eq & _)
         |[(_ & _ & _ & ->)|(_ & _ & _ & ->)]]]]; try done; congruence. }
  assert (M : forall now c s0,
            _connectionQueue s0 = [] ->
            _connectionQueue (_removeConnection now c s0) = []).
  { intros now c s0 Hq0. unfold _removeConnection.
    match goal with |- context [releaseConnection now c ?x] =>
      pose proof (R now c x Hq0) as H;
      set (r := releaseConnection now c x) in * end.
    destruct (length (_allConnections r) =? 0);
      by rewrite ?_stopExpiredTimer_eq. }
  destruct o; simpl.
  - by apply G.
  - by apply R.
  - pose proof (Pool_end_fields cb s) as [= _ _ _ _ -> _ _ _ _]. done.
  - destruct (_expiredTimer s); [|done].
    apply (closeIdle_loop_inv (fun s0 => _connectionQueue s0 = [])); [|done].
    intros s0 c q _ H0. unfold destroy.
    destruct (conn_pool (set_extra q s0) c); simpl; [|done].
    by apply M.
  - by apply M.
  - unfold run_tick. destruct (nextTick s) as [|[cb a|cb] ts]; [done|done|].
    by apply (G cb (set_ticks ts s)).
  - pose proof (connected_fields i err s) as [= _ _ _ _ -> _ _ _ _]. done.
  - pose proof (endCB_fields k err s) as [= _ _ _ _ -> _ _ _ _]. done.
  - done.
Qed.

(** X19: a pool without a limit of connections, or one that does not let
    callers wait, never has a waiter, in any state it can reach.  And without
    a limit, [getConnection] on an open pool never answers with an error: it
    defers the call with an idle connection, or it starts the establishment
    of a new one. *)
Theorem X19_nobody_waits (cfg : PoolConfig) (s : Pool) :
  (connectionLimit cfg = 0 \/ waitForConnections cfg = false) ->
  reachable cfg s ->
  _connectionQueue s = []
  /\ (connectionLimit cfg = 0 -> _closed s = false -> forall cb,
        (exists c,
           nextTick (getConnection cb s) = nextTick s ++ [TkInvoke cb (ArgConn c)]
           /\ connecting (getConnection cb s) = connecting s
           /\ trace (getConnection cb s) = trace s)
        \/ (nextTick (getConnection cb s) = nextTick s
            /\ connecting (getConnection cb s)
               = connecting s ++ [(next_conn s, cb)]
            /\ trace (getConnection cb s) = trace s ++ [ConnectReq (next_conn s)])).
Proof.
  intros Hcfg Hr. split.
  - destruct Hr as [ops ->].
    induction ops as [|o ops IH] using rev_ind; [done|].
    rewrite run_snoc. apply exec_no_waiters; [|done].
    by rewrite (reachable_config cfg (run ops (Pool_new cfg)))
      by (by eexists).
  - intros H0 Hc cb. rewrite <- (reachable_config cfg s Hr) in H0.
    destruct (getConnection_shape cb s)
      as [(H & _)|[(_ & c & q & _ & ->)|[(_ & _ & c & q & _ & ->)
         |[(_ & _ & _ & _ & ->)|[(_ & _ & _ & [H1 _] & _)
         |[(_ & _ & _ & [H1 _] & _)|(_ & _ & _ & [H1 _] & _)]]]]]];
      try congruence.
    + left. by exists c.
    + left. by exists c.
    + by right.
Qed.

(** * These theorems at work *)

Lemma X1_witness :
  ((2 ∉ [1]) /\ 4 <> 2)
  /\ spliceConnection ([1] ++ 2 :: [3] ++ [4]) 2 = [3] ++ [4] ++ [1].
Proof.
  assert (H1 : 2 ∉ [1]) by absent.
  assert (H2 : 4 <> 2) by discriminate.
  split; [by split|].
  exact (proj1 (proj2 (X1_spliceConnection_result 2)) [1] [3] 4 H1 H2).
Defined.

Lemma X2_witness :
  (2 ∈ [1; 2; 3; 2])
  /\ S (length (spliceConnection [1; 2; 3; 2] 2)) = length [1; 2; 3; 2].
Proof.
  assert (H : 2 ∈ [1; 2; 3; 2]) by (rewrite !elem_of_cons; auto).
  split; [exact H|].
  exact (proj1 (proj2 (X2_spliceConnection_removes_one 2 [1; 2; 3; 2] H))).
Defined.

Lemma X3_witness :
  reachable scenario_config full_pool
  /\ (_expiredTimer full_pool = true
      <-> _closed full_pool = false /\ _allConnections full_pool <> []).
Proof.
  assert (Hr : reachable scenario_config full_pool) by (by eexists).
  split; [exact Hr|].
  exact (X3_timer_while_open_and_tracking scenario_config full_pool Hr).
Defined.

Lemma X4_witness :
  queueLimit scenario_config <> 0
  /\ reachable scenario_config full_pool
  /\ length (_connectionQueue full_pool) <= queueLimit scenario_config.
Proof.
  assert (H0 : queueLimit scenario_config <> 0) by discriminate.
  assert (Hr : reachable scenario_config full_pool) by (by eexists).
  split; [exact H0|]. split; [exact Hr|].
  exact (X4_waiters_within_queueLimit scenario_config full_pool H0 Hr).
Defined.

Lemma X5_witness :
  reachable removal_config removal_pool
  /\ length (_freeConnections removal_pool) <= minConnections removal_config.
Proof.
  assert (Hr : reachable removal_config removal_pool) by (by eexists).
  split; [exact Hr|].
  exact (X5_free_within_minConnections removal_config removal_pool Hr).
Defined.

Lemma X6_witness :
  reachable scenario_config full_pool
  /\ NoDup (_allConnections full_pool)
  /\ (0 ∉ _allConnections (_removeConnection 7000 0 full_pool)).
Proof.
  assert (Hr : reachable scenario_config full_pool) by (by eexists).
  split; [exact Hr|].
  pose proof (X6_removeConnection_untracks scenario_config full_pool Hr) as [H1 H2].
  split; [exact H1|]. exact (proj1 (H2 7000%Z 0)).
Defined.

Lemma X7_witness :
  (reachable order_config order_pool /\ (0 ∈ _extraConnections order_pool))
  /\ exists t, conn_lastReleased order_pool 0 = Some t.
Proof.
  assert (Hr : reachable order_config order_pool) by (by eexists).
  assert (Hin : 0 ∈ _extraConnections order_pool)
    by (vm_compute; repeat constructor).
  split; [by split|].
  exact (X7_extra_connections_stamped order_config order_pool 0 Hr Hin).
Defined.

Lemma X8_witness :
  _closed ended_pool = true
  /\ _closed (run [OpGetConnection (Cb 5); OpTick; OpRelease 9000 1] ended_pool)
     = true
  /\ length (_allConnections
               (run [OpGetConnection (Cb 5); OpTick; OpRelease 9000 1] ended_pool))
     <= length (_allConnections ended_pool).
Proof.
  assert (Hc : _closed ended_pool = true) by (vm_compute; reflexivity).
  split; [exact Hc|].
  exact (X8_closed_for_good
           [OpGetConnection (Cb 5); OpTick; OpRelease 9000 1] ended_pool Hc).
Defined.

Lemma X9_witness :
  NoDup (_allConnections sweep_pool)
  /\ exists evicted,
       trace (_closeIdleConnections 20000 sweep_pool)
       = trace sweep_pool ++ map Destroyed evicted
       /\ Forall (fun c => conn_pool sweep_pool c = true ->
                           c ∉ _allConnections
                                 (_closeIdleConnections 20000 sweep_pool))
            evicted.
Proof.
  assert (Hnd : NoDup (_allConnections sweep_pool)).
  { vm_compute. repeat (apply NoDup_cons_2; [absent|]). apply NoDup_nil_2. }
  split; [exact Hnd|].
  destruct (X9_sweep_destroys_expired_idle_only 20000 sweep_pool Hnd)
    as (ev & H1 & _ & _ & H4 & _).
  exists ev. by split.
Defined.

Lemma X10_witness :
  (16000 <= 16500)%Z
  /\ _closeIdleConnections 16000 (_closeIdleConnections 16500 order_pool)
     = _closeIdleConnections 16500 order_pool.
Proof.
  assert (H : (16000 <= 16500)%Z) by lia.
  split; [exact H|].
  exact (X10_sweep_again_changes_nothing 16500 16000 order_pool H).
Defined.

Lemma X11_witness :
  (_closed busy_pool = false /\ _connectionQueue busy_pool = []
   /\ _freeConnections busy_pool = [] /\ conn_pool busy_pool 0 = true)
  /\ nextTick (getConnection (Cb 1) (releaseConnection 500 0 busy_pool))
     = nextTick busy_pool ++ [TkInvoke (Cb 1) (ArgConn 0)].
Proof.
  assert (Hc : _closed busy_pool = false) by (vm_compute; reflexivity).
  assert (Hq : _connectionQueue busy_pool = []) by (vm_compute; reflexivity).
  assert (Hf : _freeConnections busy_pool = []) by (vm_compute; reflexivity).
  assert (Hp : conn_pool busy_pool 0 = true) by (vm_compute; reflexivity).
  split; [by repeat split|].
  exact (proj1 (X11_release_then_acquire 500 0 (Cb 1) busy_pool Hc Hq Hf Hp)).
Defined.

Lemma X12_witness :
  (Forall (fun r => conn_pool two_waiters_pool r.2 = true)
     [(5000%Z, 1); (6000%Z, 0)]
   /\ length [(5000%Z, 1); (6000%Z, 0)]
      <= length (_connectionQueue two_waiters_pool))
  /\ _connectionQueue two_waiters_pool = [Cb 2; Cb 3]
  /\ nextTick (run (map (fun r => OpRelease r.1 r.2) [(5000%Z, 1); (6000%Z, 0)])
                 two_waiters_pool)
     = nextTick two_waiters_pool
       ++ zip_with (fun cb r => TkInvoke cb (ArgConn r.2))
            (_connectionQueue two_waiters_pool) [(5000%Z, 1); (6000%Z, 0)]
  /\ nextTick two_waiters_pool
     ++ zip_with (fun cb r => TkInvoke cb (ArgConn r.2))
          (_connectionQueue two_waiters_pool) [(5000%Z, 1); (6000%Z, 0)]
     = [TkInvoke (Cb 2) (ArgConn 1); TkInvoke (Cb 3) (ArgConn 0)].
Proof.
  assert (Hp : Forall (fun r => conn_pool two_waiters_pool r.2 = true)
                 [(5000%Z, 1); (6000%Z, 0)]).
  { repeat constructor; vm_compute; reflexivity. }
  assert (Hl : length [(5000%Z, 1); (6000%Z, 0)]
               <= length (_connectionQueue two_waiters_pool))
    by (vm_compute; lia).
  split; [by split|].
  split; [vm_compute; reflexivity|].
  split; [|vm_compute; reflexivity].
  exact (proj1 (proj2 (X12_waiters_served_in_order [(5000%Z, 1); (6000%Z, 0)]
                         two_waiters_pool Hp Hl))).
Defined.

Lemma X14_witness :
  (_closed failing_pool = false /\ conn_pool failing_pool 0 = false
   /\ (0 ∈ _allConnections failing_pool)
   /\ _freeConnections failing_pool = [] /\ _extraConnections failing_pool = []
   /\ _connectionQueue failing_pool = [Cb 2] /\ nextTick failing_pool = []
   /\ (connectionLimit (config failing_pool) = 0
       \/ length (_allConnections failing_pool)
          <= connectionLimit (config failing_pool)))
  /\ connecting (run_tick (_removeConnection 7000 0 failing_pool))
     = connecting failing_pool ++ [(next_conn failing_pool, Cb 2)].
Proof.
  assert (H1 : _closed failing_pool = false) by (vm_compute; reflexivity).
  assert (H2 : conn_pool failing_pool 0 = false) by (vm_compute; reflexivity).
  assert (H3 : 0 ∈ _allConnections failing_pool)
    by (vm_compute; repeat constructor).
  assert (H4 : _freeConnections failing_pool = []) by (vm_compute; reflexivity).
  assert (H5 : _extraConnections failing_pool = []) by (vm_compute; reflexivity).
  assert (H6 : _connectionQueue failing_pool = [Cb 2]) by (vm_compute; reflexivity).
  assert (H7 : nextTick failing_pool = []) by (vm_compute; reflexivity).
  assert (H8 : connectionLimit (config failing_pool) = 0
               \/ length (_allConnections failing_pool)
                  <= connectionLimit (config failing_pool))
    by (right; vm_compute; lia).
  split; [by repeat split|].
  exact (proj1 (proj2 (proj2 (X14_failed_connection_replaced 7000 0 (Cb 2) []
                                 failing_pool H1 H2 H3 H4 H5 H6 H7 H8)))).
Defined.

Lemma X15_witness :
  (PoolConfig_new unit (fun _ => None) (fun _ => Some tt) (inr sample_options)
   = Some (tt, sample_config)
   /\ (fun _ : Options => Some tt) (options_of sample_config) = Some tt)
  /\ PoolConfig_new unit (fun _ => None) (fun _ => Some tt)
       (inr (options_of sample_config)) = Some (tt, sample_config).
Proof.
  assert (H1 : PoolConfig_new unit (fun _ => None) (fun _ => Some tt)
                 (inr sample_options) = Some (tt, sample_config))
    by (vm_compute; reflexivity).
  assert (H2 : (fun _ : Options => Some tt) (options_of sample_config) = Some tt)
    by reflexivity.
  split; [by split|].
  exact (X15_PoolConfig_settled unit (fun _ => None) (fun _ => Some tt)
           (inr sample_options) tt tt sample_config H1 H2).
Defined.

Lemma X16_witness :
  Cb 2 <> default ThrowIfError (Some (Cb 9))
  /\ calls (Cb 2) (trace (Pool_end (Some (Cb 9)) full_pool))
     = calls (Cb 2) (trace full_pool).
Proof.
  assert (H : Cb 2 <> default ThrowIfError (Some (Cb 9))) by discriminate.
  split; [exact H|].
  exact (proj2 (proj2 (proj2 (proj2 (proj2 (proj2 (proj2
           (X16_end_keeps_waiters (Some (Cb 9)) full_pool))))))) (Cb 2) H).
Defined.

Lemma X17_witness :
  (_closed busy_pool = false /\ _freeConnections busy_pool = []
   /\ _extraConnections busy_pool = []
   /\ (connectionLimit (config busy_pool) = 0
       \/ length (_allConnections busy_pool) < connectionLimit (config busy_pool)))
  /\ trace (getConnection (Cb 1) busy_pool)
     = trace busy_pool ++ [ConnectReq (next_conn busy_pool)].
Proof.
  assert (Hc : _closed busy_pool = false) by (vm_compute; reflexivity).
  assert (Hf : _freeConnections busy_pool = []) by (vm_compute; reflexivity).
  assert (He : _extraConnections busy_pool = []) by (vm_compute; reflexivity).
  assert (Hl : connectionLimit (config busy_pool) = 0
               \/ length (_allConnections busy_pool)
                  < connectionLimit (config busy_pool))
    by (right; vm_compute; lia).
  split; [by repeat split|].
  exact (proj1 (X17_new_connection_delivered (Cb 1) busy_pool Hc Hf He Hl)).
Defined.

Lemma X18_witness :
  (_closed busy_pool = false /\ _freeConnections busy_pool = []
   /\ _extraConnections busy_pool = []
   /\ (connectionLimit (config busy_pool) = 0
       \/ length (_allConnections busy_pool) < connectionLimit (config busy_pool)))
  /\ trace (connected (length (connecting busy_pool)) None
              (Pool_end None (getConnection (Cb 1) busy_pool)))
     = trace (Pool_end None (getConnection (Cb 1) busy_pool))
       ++ [Invoke (Cb 1) (ArgErr PoolClosed)].
Proof.
  assert (Hc : _closed busy_pool = false) by (vm_compute; reflexivity).
  assert (Hf : _freeConnections busy_pool = []) by (vm_compute; reflexivity).
  assert (He : _extraConnections busy_pool = []) by (vm_compute; reflexivity).
  assert (Hl : connectionLimit (config busy_pool) = 0
               \/ length (_allConnections busy_pool)
                  < connectionLimit (config busy_pool))
    by (right; vm_compute; lia).
  split; [by repeat split|].
  exact (proj1 (proj2 (X18_closed_while_establishing (Cb 1) None None busy_pool
                         Hc Hf He Hl))).
Defined.

Lemma X19_witness :
  ((connectionLimit unbounded_config = 0
    \/ waitForConnections unbounded_config = false)
   /\ reachable unbounded_config unbounded_pool)
  /\ _connectionQueue unbounded_pool = [].
Proof.
  assert (H0 : connectionLimit unbounded_config = 0
               \/ waitForConnections unbounded_config = false)
    by (left; reflexivity).
  assert (Hr : reachable unbounded_config unbounded_pool) by (by eexists).
  split; [by split|].
  exact (proj1 (X19_nobody_waits unbounded_config unbounded_pool H0 Hr)).
Defined.
